(** * Verification of the esdp2 multiprocessing notebooks

    The repository holds two teaching notebooks:

    - hashing a word list with [hashlib.sha512], serially and with
      [multiprocessing.Pool.map], followed by an asynchronous example
      ([Pool.map_async] with an error callback);
    - [02_parallel_IO_with_Pool] building one retrieval request for the
      CDS API.

    The notebooks' own code is embedded function by function.  The library
    facilities they call (SHA-512, the UTF-8 codec, text-mode [readlines],
    the pool's chunking and result collection) are modelled as executable
    Rocq functions so that every statement below can be evaluated on
    concrete inputs. *)

From Stdlib Require Import ZArith List Lia Ascii String Permutation.
From stdpp Require Import base list strings pretty gmap.

Local Open Scope Z_scope.

(** ** Python values shared by both notebooks *)

(** A Python [str] is a sequence of Unicode code points.  Text that is only
    ever ASCII in the notebooks (program literals, printed lines, hex
    digests) is kept as a Rocq [string]. *)
Definition pystr : Type := list Z.

(** Code points are in [0, 0x10FFFF]. *)
Definition code_point (c : Z) : Prop := 0 <= c <= 0x10FFFF.
Definition wf_str (s : pystr) : Prop := Forall code_point s.

(** UTF-16 surrogates: legal inside a Python [str], not encodable. *)
Definition is_surrogate (c : Z) : bool := (0xD800 <=? c) && (c <=? 0xDFFF).

(** The code points of an ASCII literal. *)
Definition py (s : string) : pystr :=
  map (fun a => Z.of_N (N_of_ascii a)) (list_ascii_of_string s).

(** The exceptions the notebooks can raise. *)
Inductive exn : Type :=
| ValueError (msg : string)
| UnicodeEncodeError (obj : pystr) (start stop : nat)
| KeyError (key : string).

(** Outcome of evaluating a Python expression. *)
Inductive res (A : Type) : Type :=
| Ok (a : A)
| Raise (e : exn).
Arguments Ok {A} a.
Arguments Raise {A} e.

Definition is_ok {A} (r : res A) : bool :=
  match r with Ok _ => true | Raise _ => false end.

(** Cut a list into consecutive pieces of [size] elements (the last piece
    may be shorter); nothing is produced for [size = 0]. *)
Fixpoint chunks_fuel {A} (fuel size : nat) (l : list A) : list (list A) :=
  match fuel with
  | O => []
  | S fuel' =>
      match take size l with
      | [] => []
      | x => x :: chunks_fuel fuel' size (drop size l)
      end
  end.
Definition chunks {A} (size : nat) (l : list A) : list (list A) :=
  chunks_fuel (length l) size l.

(** ** SHA-512 (FIPS 180-4), on 64-bit words held in [Z] *)
Module SHA512.

Definition w64 (x : Z) : Z := x mod 2 ^ 64.
Definition add64 (x y : Z) : Z := w64 (x + y).
Definition rotr (n x : Z) : Z :=
  Z.lor (Z.shiftr x n) (w64 (Z.shiftl x (64 - n))).
Definition shr (n x : Z) : Z := Z.shiftr x n.

Definition Ch (x y z : Z) : Z :=
  Z.lxor (Z.land x y) (Z.land (Z.lnot x) z).
Definition Maj (x y z : Z) : Z :=
  Z.lxor (Z.lxor (Z.land x y) (Z.land x z)) (Z.land y z).
Definition Sigma0 (x : Z) : Z := Z.lxor (Z.lxor (rotr 28 x) (rotr 34 x)) (rotr 39 x).
Definition Sigma1 (x : Z) : Z := Z.lxor (Z.lxor (rotr 14 x) (rotr 18 x)) (rotr 41 x).
Definition sigma0 (x : Z) : Z := Z.lxor (Z.lxor (rotr 1 x) (rotr 8 x)) (shr 7 x).
Definition sigma1 (x : Z) : Z := Z.lxor (Z.lxor (rotr 19 x) (rotr 61 x)) (shr 6 x).

Definition K : list Z :=
  [ 0x428a2f98d728ae22; 0x7137449123ef65cd; 0xb5c0fbcfec4d3b2f; 0xe9b5dba58189dbbc;
    0x3956c25bf348b538; 0x59f111f1b605d019; 0x923f82a4af194f9b; 0xab1c5ed5da6d8118;
    0xd807aa98a3030242; 0x12835b0145706fbe; 0x243185be4ee4b28c; 0x550c7dc3d5ffb4e2;
    0x72be5d74f27b896f; 0x80deb1fe3b1696b1; 0x9bdc06a725c71235; 0xc19bf174cf692694;
    0xe49b69c19ef14ad2; 0xefbe4786384f25e3; 0x0fc19dc68b8cd5b5; 0x240ca1cc77ac9c65;
    0x2de92c6f592b0275; 0x4a7484aa6ea6e483; 0x5cb0a9dcbd41fbd4; 0x76f988da831153b5;
    0x983e5152ee66dfab; 0xa831c66d2db43210; 0xb00327c898fb213f; 0xbf597fc7beef0ee4;
    0xc6e00bf33da88fc2; 0xd5a79147930aa725; 0x06ca6351e003826f; 0x142929670a0e6e70;
    0x27b70a8546d22ffc; 0x2e1b21385c26c926; 0x4d2c6dfc5ac42aed; 0x53380d139d95b3df;
    0x650a73548baf63de; 0x766a0abb3c77b2a8; 0x81c2c92e47edaee6; 0x92722c851482353b;
    0xa2bfe8a14cf10364; 0xa81a664bbc423001; 0xc24b8b70d0f89791; 0xc76c51a30654be30;
    0xd192e819d6ef5218; 0xd69906245565a910; 0xf40e35855771202a; 0x106aa07032bbd1b8;
    0x19a4c116b8d2d0c8; 0x1e376c085141ab53; 0x2748774cdf8eeb99; 0x34b0bcb5e19b48a8;
    0x391c0cb3c5c95a63; 0x4ed8aa4ae3418acb; 0x5b9cca4f7763e373; 0x682e6ff3d6b2b8a3;
    0x748f82ee5defb2fc; 0x78a5636f43172f60; 0x84c87814a1f0ab72; 0x8cc702081a6439ec;
    0x90befffa23631e28; 0xa4506cebde82bde9; 0xbef9a3f7b2c67915; 0xc67178f2e372532b;
    0xca273eceea26619c; 0xd186b8c721c0c207; 0xeada7dd6cde0eb1e; 0xf57d4f7fee6ed178;
    0x06f067aa72176fba; 0x0a637dc5a2c898a6; 0x113f9804bef90dae; 0x1b710b35131c471b;
    0x28db77f523047d84; 0x32caab7b40c72493; 0x3c9ebe0a15c9bebc; 0x431d67c49c100d4c;
    0x4cc5d4becb3e42b6; 0x597f299cfc657e2a; 0x5fcb6fab3ad6faec; 0x6c44198c4a475817 ].

(** The eight chaining words. *)
Record hstate : Type := HState {
  ha : Z; hb : Z; hc : Z; hd : Z; he : Z; hf : Z; hg : Z; hh : Z
}.

Definition H0 : hstate :=
  HState 0x6a09e667f3bcc908 0xbb67ae8584caa73b 0x3c6ef372fe94f82b 0xa54ff53a5f1d36f1
         0x510e527fade682d1 0x9b05688c2b3e6c1f 0x1f83d9abfb41bd6b 0x5be0cd19137e2179.

(** Padding: 0x80, zeros up to 112 mod 128, then the bit length on 128 bits. *)
Definition be_bytes (n : nat) (x : Z) : list Z :=
  map (fun i => Z.land (Z.shiftr x (8 * Z.of_nat (n - 1 - i))) 0xff) (seq 0 n).

Definition pad (msg : list Z) : list Z :=
  let len := Z.of_nat (length msg) in
  let zeros := Z.to_nat ((111 - len) mod 128) in
  msg ++ 0x80 :: repeat 0 zeros ++ be_bytes 16 (8 * len).

(** Big-endian bytes to one word. *)
Definition be_word (bs : list Z) : Z :=
  fold_left (fun acc b => Z.lor (Z.shiftl acc 8) b) bs 0.

(** Message schedule: sixteen block words extended to eighty. *)
Fixpoint expand (n : nat) (w : list Z) : list Z :=
  match n with
  | O => w
  | S n' =>
      let t := length w in
      let x := add64 (add64 (sigma1 (nth (t - 2) w 0)) (nth (t - 7) w 0))
                     (add64 (sigma0 (nth (t - 15) w 0)) (nth (t - 16) w 0)) in
      expand n' (w ++ [x])
  end.

Definition schedule (block : list Z) : list Z :=
  expand 64 (map be_word (chunks 8 block)).

Definition round (s : hstate) (kw : Z * Z) : hstate :=
  let '(HState a b c d e f g h) := s in
  let t1 := add64 (add64 (add64 h (Sigma1 e)) (add64 (Ch e f g) (fst kw))) (snd kw) in
  let t2 := add64 (Sigma0 a) (Maj a b c) in
  HState (add64 t1 t2) a b c (add64 d t1) e f g.

Definition compress (s : hstate) (block : list Z) : hstate :=
  let '(HState a b c d e f g h) := fold_left round (combine K (schedule block)) s in
  HState (add64 (ha s) a) (add64 (hb s) b) (add64 (hc s) c) (add64 (hd s) d)
         (add64 (he s) e) (add64 (hf s) f) (add64 (hg s) g) (add64 (hh s) h).

Definition hwords (s : hstate) : list Z :=
  [ha s; hb s; hc s; hd s; he s; hf s; hg s; hh s].

(** The 64-byte digest of a byte string. *)
Definition digest (msg : list Z) : list Z :=
  flat_map (be_bytes 8) (hwords (fold_left compress (chunks 128 (pad msg)) H0)).

(** Lowercase hexadecimal rendering, two digits per byte. *)
Definition hex_digit (n : Z) : ascii :=
  nth (Z.to_nat n) (list_ascii_of_string "0123456789abcdef") "0"%char.
Definition hex_byte (b : Z) : list ascii :=
  [hex_digit (Z.shiftr b 4); hex_digit (Z.land b 0xf)].
Definition hex (bs : list Z) : string :=
  string_of_list_ascii (flat_map hex_byte bs).

End SHA512.

(** ** The UTF-8 codec: [str.encode('utf-8')] *)
Module Utf8.

(** Bytes of one code point; surrogates have no encoding. *)
Definition encode_char (c : Z) : option (list Z) :=
  if c <? 0x80 then Some [c]
  else if c <? 0x800 then
    Some [Z.lor 0xC0 (Z.shiftr c 6); Z.lor 0x80 (Z.land c 0x3F)]
  else if is_surrogate c then None
  else if c <? 0x10000 then
    Some [Z.lor 0xE0 (Z.shiftr c 12);
          Z.lor 0x80 (Z.land (Z.shiftr c 6) 0x3F);
          Z.lor 0x80 (Z.land c 0x3F)]
  else
    Some [Z.lor 0xF0 (Z.shiftr c 18);
          Z.lor 0x80 (Z.land (Z.shiftr c 12) 0x3F);
          Z.lor 0x80 (Z.land (Z.shiftr c 6) 0x3F);
          Z.lor 0x80 (Z.land c 0x3F)].

(** Length of the run of surrogates at the head of [s]. *)
Fixpoint surrogate_run (s : pystr) : nat :=
  match s with
  | c :: s' => if is_surrogate c then S (surrogate_run s') else O
  | [] => O
  end.

(** Encoding from position [pos] of [obj] with the strict error handler:
    the first surrogate raises [UnicodeEncodeError] spanning its run. *)
Fixpoint encode_from (obj : pystr) (pos : nat) (s : pystr) : res (list Z) :=
  match s with
  | [] => Ok []
  | c :: s' =>
      match encode_char c with
      | None => Raise (UnicodeEncodeError obj pos (pos + surrogate_run s)%nat)
      | Some bs =>
          match encode_from obj (S pos) s' with
          | Ok rest => Ok (bs ++ rest)
          | Raise e => Raise e
          end
      end
  end.

Definition encode (s : pystr) : res (list Z) := encode_from s 0 s.

End Utf8.

(** ** Floats

    Every float the asynchronous example handles is a non-negative dyadic
    rational: [random()] returns [k / 2^53] with [0 <= k < 2^53], and the
    literal [0.04] denotes [5764607523034235 / 2^57].  Such a value is kept
    exactly as its numerator and the exponent of its denominator. *)
Record pyfloat : Type := Float { mant : Z; scale : nat }.

(** The format specification [.3f]: three decimals, the exact value rounded
    half to even. *)
Definition format_3f (x : pyfloat) : string :=
  let n := mant x * 1000 in
  let d := 2 ^ Z.of_nat (scale x) in
  let q := n / d in
  let r := n mod d in
  let q := if (d <? 2 * r) || ((d =? 2 * r) && Z.odd q) then q + 1 else q in
  pretty (q / 1000) +:+ "." +:+ pretty (q / 100 mod 10)
    +:+ pretty (q / 10 mod 10) +:+ pretty (q mod 10).

(** ** One Python process *)
Module Py.

(** A [hashlib] hash object: digests are taken over the concatenation of
    everything fed to [update] so far. *)
Record hash_object : Type := HashObject { fed : list Z }.

#[export] Instance hash_object_inhabited : Inhabited hash_object :=
  populate (HashObject []).

(** What a process owns: its live hash objects by address, the generator
    behind [random()] (an oracle for the successive 53-bit draws and the
    number of draws made), the lines written to standard output, and the
    durations slept. *)
Record proc : Type := Proc {
  heap : gmap nat hash_object;
  rng : nat -> Z;
  drawn : nat;
  stdout : list string;
  slept : list pyfloat
}.

Definition set_heap (h : gmap nat hash_object) (s : proc) : proc :=
  Proc h (rng s) (drawn s) (stdout s) (slept s).

(** Computations of a process: a state transformer that returns or raises. *)
Definition M (A : Type) : Type := proc -> res A * proc.

#[export] Instance M_ret : MRet M := fun A a s => (Ok a, s).
#[export] Instance M_bind : MBind M := fun A B k m s =>
  match m s with
  | (Ok a, s') => k a s'
  | (Raise e, s') => (Raise e, s')
  end.

Definition raise {A} (e : exn) : M A := fun s => (Raise e, s).
Definition lift {A} (r : res A) : M A := fun s => (r, s).

(** [list(map(f, args))]: left to right, stopping at the first exception. *)
Fixpoint map_list {A B} (f : A -> M B) (args : list A) : M (list B) :=
  match args with
  | [] => mret []
  | a :: args' => b ← f a; bs ← map_list f args'; mret (b :: bs)
  end.

(** *** hashlib *)
Definition fresh_loc (h : gmap nat hash_object) : nat :=
  S (max_list (elements (dom h))).

(** [sha512()]: a new, empty hash object. *)
Definition sha512 : M nat := fun s =>
  let l := fresh_loc (heap s) in
  (Ok l, set_heap (<[l := HashObject []]> (heap s)) s).

(** [h.update(data)] *)
Definition update (l : nat) (data : list Z) : M unit := fun s =>
  (Ok tt, set_heap (alter (fun o => HashObject (fed o ++ data)) l (heap s)) s).

(** [h.hexdigest()] *)
Definition hexdigest (l : nat) : M string := fun s =>
  (Ok (SHA512.hex (SHA512.digest (fed (heap s !!! l)))), s).

(** Leaving a function drops its local reference to the object at [l],
    which frees it, whether the body returned or raised. *)
Definition release_after {A} (l : nat) (body : M A) : M A := fun s =>
  let '(r, s') := body s in (r, set_heap (delete l (heap s')) s').

(** *** random, time, print *)
Definition random : M pyfloat := fun s =>
  (Ok (Float (rng s (drawn s) mod 2 ^ 53) 53),
   Proc (heap s) (rng s) (S (drawn s)) (stdout s) (slept s)).

Definition sleep (t : pyfloat) : M unit := fun s =>
  (Ok tt, Proc (heap s) (rng s) (drawn s) (stdout s) (slept s ++ [t])).

(** [print(line)]: one more line on standard output. *)
Definition print (line : string) : M unit := fun s =>
  (Ok tt, Proc (heap s) (rng s) (drawn s) (stdout s ++ [line]) (slept s)).

End Py.
Import Py.

(** ** [multiprocessing.Pool]: chunked map with result collection

    The pool cuts the iterable into chunks, lets worker processes evaluate
    one chunk each with [mapstar], and a result-handler thread of the parent
    process files every chunk's outcome into the [MapResult] in the order in
    which the chunks complete.  That order is not determined by the program:
    it is the parameter [sched], a list of chunk indices, and the state of
    the worker that picks up chunk [i] is the parameter [w i]. *)
Module Pool.

Section map_result.
Context {R : Type}.

(** [_value] holds the result list (initially all [None]) until a chunk
    fails, and the first failure's exception from then on; [_success] is
    "the value is still a list".  [ready] is the event [get] waits for. *)
Record MapResult : Type := MkMapResult {
  value : res (list (option R));
  chunksize : nat;
  number_left : Z;
  ready : bool
}.

(** [MapResult.__init__] *)
Definition new_result (chunksize length : nat) : MapResult :=
  let value := Ok (replicate length None) in
  match chunksize with
  | O => MkMapResult value chunksize 0 true
  | _ =>
      let extra := if (length mod chunksize =? 0)%nat then 0 else 1 in
      MkMapResult value chunksize
        (Z.of_nat (length / chunksize)%nat + extra) false
  end.

(** [l[lo:hi] = r] *)
Definition slice_assign {X} (l : list X) (lo hi : nat) (r : list X) : list X :=
  take lo l ++ r ++ drop hi l.

Definition call_if_set {X} (cb : option (X -> M unit)) (x : X) : M unit :=
  match cb with
  | Some c => c x
  | None => mret tt
  end.

(** [MapResult._set(i, (success, result))]: a successful chunk is stored in
    its slice while no chunk has failed; only the first exception is kept;
    the callback or the error callback runs once, when the last chunk has
    reported. *)
Definition MapResult_set
    (callback : option (list (option R) -> M unit))
    (error_callback : option (exn -> M unit))
    (i : nat) (success_result : res (list R)) (mr : MapResult) : M MapResult :=
  let cs := chunksize mr in
  let left := number_left mr - 1 in
  let failed e :=
    if left =? 0 then
      _ ← call_if_set error_callback e;
      mret (MkMapResult (Raise e) cs left true)
    else mret (MkMapResult (Raise e) cs left (ready mr)) in
  match success_result, value mr with
  | Ok result, Ok v =>
      let v' := slice_assign v (i * cs) ((i + 1) * cs) (Some <$> result) in
      if left =? 0 then
        _ ← call_if_set callback v';
        mret (MkMapResult (Ok v') cs left true)
      else mret (MkMapResult (Ok v') cs left (ready mr))
  | Raise e, Ok _ => failed e
  | _, Raise e => failed e
  end.

(** The result handler: outcomes are filed in completion order. *)
Fixpoint handle_results
    (callback : option (list (option R) -> M unit))
    (error_callback : option (exn -> M unit))
    (outcomes : list (res (list R))) (sched : list nat)
    (mr : MapResult) : M MapResult :=
  match sched with
  | [] => mret mr
  | i :: sched' =>
      match outcomes !! i with
      | Some sr =>
          mr' ← MapResult_set callback error_callback i sr mr;
          handle_results callback error_callback outcomes sched' mr'
      | None => handle_results callback error_callback outcomes sched' mr
      end
  end.

(** [ApplyResult.get] once the event is set: the value, or the stored
    exception raised in the caller.  [None]: the event is not set and the
    caller keeps waiting. *)
Definition get (mr : MapResult) : M (option (list (option R))) :=
  if ready mr then
    match value mr with
    | Ok v => mret (Some v)
    | Raise e => raise e
    end
  else mret None.

Context {A : Type}.

(** [worker]: one task is [mapstar] over a chunk, inside [try]/[except]. *)
Definition worker (f : A -> M R) (s : proc) (chunk : list A) : res (list R) :=
  (map_list f chunk s).1.

(** [Pool._get_tasks] *)
Definition get_tasks (iterable : list A) (size : nat) : list (list A) :=
  chunks size iterable.

(** The chunk size [_map_async] settles on: the caller's, or the length
    divided by four times the pool size, rounded up; [0] for an empty
    iterable. *)
Definition chunksize_for (processes len : nat) (chunksize : option nat) : nat :=
  let chunksize :=
    match chunksize with
    | Some c => c
    | None =>
        let c := (len / (processes * 4))%nat in
        if (len mod (processes * 4) =? 0)%nat then c else S c
    end in
  if (len =? 0)%nat then O else chunksize.

(** [Pool._map_async] followed by the pool's processing of the job. *)
Definition map_async (processes : nat) (f : A -> M R) (iterable : list A)
    (chunksize : option nat)
    (callback : option (list (option R) -> M unit))
    (error_callback : option (exn -> M unit))
    (w : nat -> proc) (sched : list nat) : M MapResult :=
  let chunksize := chunksize_for processes (length iterable) chunksize in
  let task_batches := get_tasks iterable chunksize in
  let outcomes := imap (fun i batch => worker f (w i) batch) task_batches in
  handle_results callback error_callback outcomes sched
    (new_result chunksize (length iterable)).

(** [Pool.map]: [_map_async(...).get()] *)
Definition map (processes : nat) (f : A -> M R) (iterable : list A)
    (w : nat -> proc) (sched : list nat) : M (option (list (option R))) :=
  mr ← map_async processes f iterable None None None w sched;
  get mr.

End map_result.
Arguments MapResult R : clear implicits.

(** The number of chunks the pool cuts [n] items into. *)
Definition n_chunks (processes n : nat) (chunksize : option nat) : nat :=
  match chunksize_for processes n chunksize with
  | O => O
  | cs => if (n mod cs =? 0)%nat then (n / cs)%nat else S (n / cs)%nat
  end.

(** Every chunk completes, once. *)
Definition complete (n : nat) (sched : list nat) : Prop :=
  Permutation sched (seq 0 n).

End Pool.

(** ** Notebook 1, first part: hashing a word list *)
Module Hashing.

(** [hash_word(word)] *)
Definition hash_word (word : pystr) : M string :=
  hash_object ← sha512;
  release_after hash_object (
    byte_data ← lift (Utf8.encode word);
    _ ← update hash_object byte_data;
    hexdigest hash_object).

Definition processes : nat := 8.

(** [f.readlines()] on the text stream of a file opened with mode ['r']:
    the stream is cut after every line feed, which stays in its line; a
    last line without a line feed is kept as it is. *)
Fixpoint readlines (text : pystr) : list pystr :=
  match text with
  | [] => []
  | c :: text' =>
      if c =? 10 then [c] :: readlines text'
      else match readlines text' with
           | [] => [[c]]
           | line :: lines => (c :: line) :: lines
           end
  end.


(** [known_words = {hash_word(w) for w in words}] *)
Definition known_words_serial (words : list pystr) : M (gset string) :=
  hashes ← map_list hash_word words;
  mret (list_to_set hashes).

(** [known_words = set(p.map(hash_word, words))] *)
Definition known_words_parallel (words : list pystr)
    (w : nat -> proc) (sched : list nat) : M (option (gset (option string))) :=
  r ← Pool.map processes hash_word words w sched;
  mret (list_to_set <$> r).

End Hashing.

(** ** Notebook 1, second part: asynchronous execution *)
Module Async.

(** [range(n)] *)
Definition range (n : nat) : list Z := Z.of_nat <$> seq 0 n.

(** Four lowercase hexadecimal digits, as in the escape [\udc80]. *)
Definition hex4 (c : Z) : string :=
  SHA512.hex [Z.shiftr c 8; Z.land c 0xff].

(** [str(e)], which is what an f-string renders for an exception. *)
Definition exn_str (e : exn) : string :=
  match e with
  | ValueError msg => msg
  | KeyError key => "'" +:+ key +:+ "'"
  | UnicodeEncodeError obj start stop =>
      if (stop =? S start)%nat then
        "'utf-8' codec can't encode character '\u" +:+
        hex4 (nth start obj 0) +:+ "' in position " +:+
        pretty start +:+ ": surrogates not allowed"
      else
        "'utf-8' codec can't encode characters in position " +:+
        pretty start +:+ "-" +:+ pretty (stop - 1)%nat +:+
        ": surrogates not allowed"
  end.

(** [task(value)] *)
Definition task (value : Z) : M unit :=
  if (value =? 42) || (value =? 13) then
    raise (ValueError (pretty value +:+ " is an impossible value!"))
  else
    random_value ← random;
    _ ← sleep random_value;
    let result := (value, random_value) in
    print (">task(" +:+ pretty result.1 +:+ "):" +:+ format_3f result.2).

(** [galactic_error(value)] *)
Definition galactic_error (value : exn) : M unit :=
  print ("***" +:+ exn_str value +:+ "***").

(** [main_task()] *)
Definition main_task : M unit :=
  let sleep_time := Float 5764607523034235 57 in
  _ ← map_list (fun i =>
         _ ← print ("$main(" +:+ pretty i +:+ "):" +:+ format_3f sleep_time);
         sleep sleep_time) (range 100);
  mret tt.

(** The job issued by the entry point. *)
Definition issue (w : nat -> proc) (sched : list nat) : M (Pool.MapResult unit) :=
  Pool.map_async 8 task (range 60) (Some 16%nat) None (Some galactic_error)
    w sched.

(** The entry point.  The handler thread's output is placed before
    [main_task]'s here; in a run the two interleave, and no statement below
    depends on their relative order.  [close] and [join] wait for the job
    and have no other effect. *)
Definition main (w : nat -> proc) (sched : list nat) : M unit :=
  _ ← issue w sched;
  main_task.

(** The line the error callback prints for the exception [e]. *)
Definition banner (e : exn) : string := "***" +:+ exn_str e +:+ "***".

(** The sentinel inputs. *)
Definition sentinel (v : Z) : Prop := v = 13 \/ v = 42.

End Async.

(** ** Notebook 2: one retrieval request for the CDS API

    All text in this notebook is kept as Rocq [string]s. *)
Module ERA5.

(** A dict display: later entries win. *)
Definition dict {V} (items : list (string * V)) : gmap string V :=
  foldl (fun m kv => <[kv.1 := kv.2]> m) ∅ items.

Definition vars : gmap string Z :=
  dict [ ("temperature", 130);
         ("specific humidity", 111);
         ("surface pressure", 111);
         ("10-m wind speed", 111) ]%string.

(** The arguments of one [c.retrieve(name, request, target)] call. *)
Record retrieve_call : Type := RetrieveCall {
  name : string;
  request : gmap string string;
  target : string
}.

(** The call of the notebook as a function of the three variables it is
    built from; [vars[thisvar]] raises [KeyError] for an unknown name. *)
Definition retrieve (thisvar firstdate lastdate : string) : res retrieve_call :=
  match vars !! thisvar with
  | None => Raise (KeyError thisvar)
  | Some code =>
      Ok (RetrieveCall "reanalysis-era5-complete"
            (dict [ ("class", "ea");
                    ("date", firstdate +:+ "/to/" +:+ lastdate);
                    ("expver", "1");
                    ("levelist", "137");
                    ("levtype", "ml");
                    ("param", pretty code);
                    ("step", "0");
                    ("stream", "oper");
                    ("time", "09:00:00/21:00:00");
                    ("type", "4v");
                    ("format", "netcdf") ]%string)
            ("era5_" +:+ thisvar +:+ "_" +:+ firstdate +:+ "_" +:+ lastdate
               +:+ ".nc"))
  end.

Definition thisvar : string := "temperature".
Definition firstdate : string := "2023-01-01".
Definition lastdate : string := "2023-01-31".

(** The request the notebook submits. *)
Definition submitted : res retrieve_call := retrieve thisvar firstdate lastdate.

End ERA5.

(** ** Initial states used to evaluate the model *)
Definition proc0 : proc := Proc ∅ (fun i => Z.of_nat i * 0x9E3779B97F4A7) 0 [] [].

(** ** Statements the notebooks are checked against *)

(** The digest the hashing notebook is expected to compute for a word:
    [hexdigest(SHA512(utf8_encode(w)))], written as one expression. *)
Definition hash_word_spec (w : pystr) : res string :=
  match Utf8.encode w with
  | Ok bytes => Ok (SHA512.hex (SHA512.digest bytes))
  | Raise e => Raise e
  end.

Definition lower_hex (a : ascii) : Prop :=
  In a (list_ascii_of_string "0123456789abcdef").

Definition no_surrogate (w : pystr) : Prop :=
  Forall (fun c => is_surrogate c = false) w.

(** A process that calls [hash_word] among arbitrary other computations.
    [trace] pairs the argument of every [hash_word] call with what the call
    returned or raised; an exception ends that call only. *)
Inductive call : Type :=
| HashWord (w : pystr)
| Other (g : M unit).

Fixpoint trace (calls : list call) (s : proc) : list (pystr * res string) :=
  match calls with
  | [] => []
  | HashWord w :: calls' =>
      let '(r, s') := Hashing.hash_word w s in (w, r) :: trace calls' s'
  | Other g :: calls' => trace calls' (g s).2
  end.

(** The exception a [MapResult] keeps: that of the first failed chunk in
    completion order. *)
Fixpoint first_failure {R} (outcomes : list (res (list R))) (sched : list nat)
    : option exn :=
  match sched with
  | [] => None
  | i :: sched' =>
      match outcomes !! i with
      | Some (Raise e) => Some e
      | _ => first_failure outcomes sched'
      end
  end.

(** The shape of a chunk list: full blocks, then at most one shorter one. *)
Inductive blocks_of {X} (size : nat) : list (list X) -> Prop :=
| blocks_nil : blocks_of size []
| blocks_last b : (length b <= size)%nat -> blocks_of size [b]
| blocks_cons b bs :
    length b = size -> blocks_of size bs -> blocks_of size (b :: bs).

(** The result list once the chunks in [P] have been filed: the results of
    a filed chunk stand in its block, the others are still [None]. *)
Definition block {R A} (outcomes : list (res (list R))) (P : list nat)
    (i : nat) (c : list A) : list (option R) :=
  if bool_decide (i ∈ P) then
    match outcomes !! i with
    | Some (Ok rs) => Some <$> rs
    | _ => replicate (length c) None
    end
  else replicate (length c) None.

(** The value of a [MapResult] once the chunks in [P] have been filed, in
    that order. *)
Definition filed {R A} (outcomes : list (res (list R)))
    (batches : list (list A)) (P : list nat) : res (list (option R)) :=
  match first_failure outcomes P with
  | Some e => Raise e
  | None => Ok (concat (imap (block outcomes P) batches))
  end.

(** [map] over a list for a function without effects, stopping at the
    first exception. *)
Fixpoint map_res {A B} (g : A -> res B) (l : list A) : res (list B) :=
  match l with
  | [] => Ok []
  | a :: l' =>
      match g a with
      | Ok b =>
          match map_res g l' with
          | Ok bs => Ok (b :: bs)
          | Raise e => Raise e
          end
      | Raise e => Raise e
      end
  end.

(** The value of a [MapResult] after one more outcome, and the callback
    that fires when the last outcome has been filed. *)
Definition next_value {R} (cs i : nat) (sr : res (list R))
    (v : res (list (option R))) : res (list (option R)) :=
  match sr, v with
  | Ok result, Ok v =>
      Ok (Pool.slice_assign v (i * cs) ((i + 1) * cs) (Some <$> result))
  | Raise e, Ok _ => Raise e
  | _, Raise e => Raise e
  end.

Definition notify {R} (callback : option (list (option R) -> M unit))
    (error_callback : option (exn -> M unit))
    (v : res (list (option R))) : M unit :=
  match v with
  | Ok v => Pool.call_if_set callback v
  | Raise e => Pool.call_if_set error_callback e
  end.

(** What [task] returns or raises, which its argument alone decides. *)
Definition task_outcome (v : Z) : res unit :=
  if (v =? 42) || (v =? 13) then
    Raise (ValueError (pretty v +:+ " is an impossible value!"))
  else Ok tt.

(** The serial and the parallel hashing cells hold the same hashes. *)
Definition same_hashes (serial : gset string)
    (parallel : gset (option string)) : Prop :=
  (None ∉ parallel) /\ (forall h, Some h ∈ parallel <-> h ∈ serial).


(** The exception [task] raises for the value [v]. *)
Definition impossible (v : Z) : exn :=
  ValueError (pretty v +:+ " is an impossible value!").

(** The first sentinel of a chunk: where [mapstar] stops. *)
Definition first_sentinel (chunk : list Z) : option Z :=
  List.find (fun v => (v =? 42) || (v =? 13)) chunk.

(** The sentinel whose error reaches the error callback: the first one of
    the first chunk, in completion order, that holds a sentinel. *)
Fixpoint reported_sentinel (batches : list (list Z)) (sched : list nat)
    : option Z :=
  match sched with
  | [] => None
  | i :: sched' =>
      match batches !! i ≫= first_sentinel with
      | Some v => Some v
      | None => reported_sentinel batches sched'
      end
  end.

(** The request of the notebook, written out. *)
Definition submitted_call : ERA5.retrieve_call :=
  ERA5.RetrieveCall "reanalysis-era5-complete"
    (ERA5.dict [ ("class", "ea");
                 ("date", "2023-01-01/to/2023-01-31");
                 ("expver", "1");
                 ("levelist", "137");
                 ("levtype", "ml");
                 ("param", "130");
                 ("step", "0");
                 ("stream", "oper");
                 ("time", "09:00:00/21:00:00");
                 ("type", "4v");
                 ("format", "netcdf") ]%string)
    "era5_temperature_2023-01-01_2023-01-31.nc".

(** The three variables that share a parameter code. *)
Definition humidity_pressure_wind : list string :=
  ["specific humidity"; "surface pressure"; "10-m wind speed"]%string.

(** ** Example inputs *)

(** A two-line file and its second line. *)
Definition two_lines : pystr := py "ab" ++ [10] ++ py "cd" ++ [10].
Definition second_line : pystr := py "cd" ++ [10].

(** [hashlib.sha512(b'cd\n').hexdigest()] *)
Definition digest_cd : string :=
  "240de6b3ec8362356e430e4a3d14e8bd74f312d852a1e358e3160f6e0faae60731aabc1d7b7be4f1e6a657e539bd2997667e6947833cba730420359a6fcc61cc".

(** [hashlib.sha512(b'ab\n').hexdigest()] *)
Definition digest_ab : string :=
  "46f93691eef6d2e005b4d847f779740f181ca7facf3136f0bc095e543372b14e997d47e52257d90284758ac80fa2ba4ef68bab751deb03f96746f877847b3251".

(** A process that hashes the same word twice around other work. *)
Definition busy_process : list call :=
  [HashWord second_line; Other (_ ← random; print "x");
   HashWord (py "ab"); Other (_ ← sha512; mret tt); HashWord second_line].

(** Four words, and an order in which their chunks finish. *)
Definition four_words : list pystr :=
  [py "ab" ++ [10]; py "cd" ++ [10]; [10]; py "ab" ++ [10]].
Definition out_of_order : list nat := [2; 0; 3; 1]%nat.

(** ** Further notions used to state what the notebooks do *)



(** Example inputs: what follows the first surrogate of the word
    ['a𐀀b'], and a word that ends in a lone surrogate. *)
Definition surrogate_tail : pystr := [0xDC00; 0x62].
Definition bad_word : pystr := [0x61; 0xDC80].

(** Reading UTF-8 back: the code points of a byte string the encoder
    produced.  It is used to show that encoding loses nothing. *)
Fixpoint utf8_decode (bs : list Z) : pystr :=
  match bs with
  | [] => []
  | b1 :: r1 =>
      if b1 <? 0x80 then b1 :: utf8_decode r1
      else
        match r1 with
        | [] => []
        | b2 :: r2 =>
            if b1 <? 0xE0 then
              ((b1 - 0xC0) * 64 + (b2 - 0x80)) :: utf8_decode r2
            else
              match r2 with
              | [] => []
              | b3 :: r3 =>
                  if b1 <? 0xF0 then
                    ((b1 - 0xE0) * 4096 + (b2 - 0x80) * 64 + (b3 - 0x80))
                      :: utf8_decode r3
                  else
                    match r3 with
                    | [] => []
                    | b4 :: r4 =>
                        ((b1 - 0xF0) * 262144 + (b2 - 0x80) * 4096
                         + (b3 - 0x80) * 64 + (b4 - 0x80)) :: utf8_decode r4
                    end
              end
        end
  end.

(** A word with one, two, three and four byte characters. *)
Definition mixed_word : pystr := [0x61; 0xe9; 0x20ac; 0x1F600].

(** The inputs of a chunk that [mapstar] reaches: those before its first
    sentinel. *)
Fixpoint before_sentinel (chunk : list Z) : list Z :=
  match chunk with
  | [] => []
  | v :: chunk' =>
      if (v =? 42) || (v =? 13) then [] else v :: before_sentinel chunk'
  end.

(** The [k]-th float a process in state [s] will draw from now on. *)
Definition next_draw (s : proc) (k : nat) : pyfloat :=
  Float (rng s (drawn s + k)%nat mod 2 ^ 53) 53.

(** The line [task] prints for an input and its float. *)
Definition task_report (v : Z) (x : pyfloat) : string :=
  ">task(" +:+ pretty v +:+ "):" +:+ format_3f x.

(** A word list with a word that cannot be encoded. *)
Definition words_with_bad : list pystr := [second_line; bad_word; second_line].

(** The lines [main_task] prints and the time it sleeps between them. *)
Definition sleep_time : pyfloat := Float 5764607523034235 57.
Definition main_lines : list string :=
  (fun i => "$main(" +:+ pretty i +:+ "):0.040") <$> Async.range 100.

(** The names [vars] knows, and the keys of every request. *)
Definition var_names : list string :=
  ["temperature"; "specific humidity"; "surface pressure"; "10-m wind speed"]%string.

(** A string without underscore, as an ISO date is. *)
Definition no_underscore (s : string) : Prop :=
  ~ In "_"%char (list_ascii_of_string s).

(** * Evaluation of the model on known values *)

(** SHA-512 test vectors: the empty message, ["abc"], and messages that
    need a second padding block. *)
Example sha512_empty :
  SHA512.hex (SHA512.digest []) =
  "cf83e1357eefb8bdf1542850d66d8007d620e4050b5715dc83f4a921d36ce9ce47d0d13c5d85f2b0ff8318d2877eec2f63b931bd47417a81a538327af927da3e"%string.
Proof. vm_compute. reflexivity. Qed.

Example sha512_abc :
  SHA512.hex (SHA512.digest (py "abc")) =
  "ddaf35a193617abacc417349ae20413112e6fa4e89a97ea20a9eeee64b55d39a2192992a274fc1a836ba3c23a3feebbd454d4423643ce80e2a9ac94fa54ca49f"%string.
Proof. vm_compute. reflexivity. Qed.

Example sha512_112_bytes :
  SHA512.hex (SHA512.digest (repeat 97 112)) =
  "c01d080efd492776a1c43bd23dd99d0a2e626d481e16782e75d54c2503b5dc32bd05f0f1ba33e568b88fd2d970929b719ecbb152f58f130a407c8830604b70ca"%string.
Proof. vm_compute. reflexivity. Qed.

Example sha512_200_bytes :
  SHA512.hex (SHA512.digest (repeat 97 200)) =
  "4b11459c33f52a22ee8236782714c150a3b2c60994e9acee17fe68947a3e6789f31e7668394592da7bef827cddca88c4e6f86e4df7ed1ae6cba71f3e98faee9f"%string.
Proof. vm_compute. reflexivity. Qed.

(** UTF-8: one to four bytes per code point. *)
Example utf8_widths :
  Utf8.encode [0x61; 0xe9; 0x20ac; 0x1F600; 10]
  = Ok [0x61; 0xc3; 0xa9; 0xe2; 0x82; 0xac; 0xf0; 0x9f; 0x98; 0x80; 0x0a].
Proof. reflexivity. Qed.

Example utf8_surrogate_run :
  Utf8.encode [0x61; 0xD800; 0xDC00; 0x62]
  = Raise (UnicodeEncodeError [0x61; 0xD800; 0xDC00; 0x62] 1 3).
Proof. reflexivity. Qed.

Example hash_word_cd : (Hashing.hash_word second_line proc0).1 = Ok digest_cd.
Proof. vm_compute. reflexivity. Qed.

Example hash_word_keeps_line_feed :
  (Hashing.hash_word (py "cd") proc0).1 <> (Hashing.hash_word second_line proc0).1.
Proof. vm_compute. discriminate. Qed.

Example readlines_keeps_ends :
  Hashing.readlines (py "ab" ++ [10] ++ py "cd" ++ [10; 10] ++ py "x")
  = [py "ab" ++ [10]; py "cd" ++ [10]; [10]; py "x"].
Proof. reflexivity. Qed.

Example chunks_of_range_60 :
  length <$> chunks 16 (Async.range 60) = [16; 16; 16; 12]%nat.
Proof. reflexivity. Qed.

Example format_3f_ties_to_even :
  format_3f (Float 1 4) = "0.062"%string /\
  format_3f (Float 3 4) = "0.188"%string /\
  format_3f (Float (2 ^ 53 - 1) 53) = "1.000"%string /\
  format_3f (Float 5764607523034235 57) = "0.040"%string.
Proof. repeat split; vm_compute; reflexivity. Qed.

Example exn_str_values :
  Async.exn_str (impossible 13) = "13 is an impossible value!"%string /\
  Async.exn_str (UnicodeEncodeError [0x61; 0xDC80; 0x62] 1 2)
  = "'utf-8' codec can't encode character '\udc80' in position 1: surrogates not allowed"%string.
Proof. split; vm_compute; reflexivity. Qed.

Example task_line :
  stdout (Async.task 5 (Proc ∅ (fun _ => 2 ^ 52) 0 [] [])).2 = [">task(5):0.500"]%string.
Proof. vm_compute. reflexivity. Qed.

(** The job of the entry point for two completion orders: one line from
    the error callback either way, for whichever failing chunk reports
    first. *)
Example issue_in_order :
  stdout (Async.issue (fun _ => proc0) [0; 1; 2; 3]%nat proc0).2
  = ["***13 is an impossible value!***"]%string.
Proof. vm_compute. reflexivity. Qed.

Example issue_reversed :
  stdout (Async.issue (fun _ => proc0) [3; 2; 1; 0]%nat proc0).2
  = ["***42 is an impossible value!***"]%string.
Proof. vm_compute. reflexivity. Qed.

Example main_output :
  take 3 (stdout (Async.main (fun _ => proc0) [3; 2; 1; 0]%nat proc0).2)
  = ["***42 is an impossible value!***"; "$main(0):0.040"; "$main(1):0.040"]%string
  /\ length (stdout (Async.main (fun _ => proc0) [3; 2; 1; 0]%nat proc0).2)
     = 101%nat.
Proof. split; vm_compute; reflexivity. Qed.

(** * Proofs *)

(** ** The hash object lives and dies inside [hash_word] *)

Lemma fresh_loc_fresh (h : gmap nat hash_object) : h !! fresh_loc h = None.
Proof.
  apply not_elem_of_dom. intros Hin.
  apply elem_of_elements, max_list_elem_of_le in Hin.
  unfold fresh_loc in Hin. lia.
Qed.

Lemma set_heap_same (s : proc) : set_heap (heap s) s = s.
Proof. by destruct s. Qed.

Lemma alloc_release (h : gmap nat hash_object) (o o' : hash_object) f :
  delete (fresh_loc h) (alter f (fresh_loc h) (<[fresh_loc h := o]> h)) = h.
Proof.
  rewrite alter_insert_eq, delete_insert_eq.
  apply delete_id, fresh_loc_fresh.
Qed.

Lemma hash_word_run (w : pystr) (s : proc) :
  Hashing.hash_word w s = (hash_word_spec w, s).
Proof.
  destruct s as [h r d o sl].
  unfold Hashing.hash_word, hash_word_spec, mbind, M_bind, sha512,
    release_after, lift, update, hexdigest, set_heap.
  cbn [heap rng drawn stdout slept].
  destruct (Utf8.encode w) as [bytes|e]; cbn [heap rng drawn stdout slept].
  - rewrite lookup_total_alt, lookup_alter_eq, lookup_insert_eq.
    by rewrite (alloc_release _ _ (HashObject [])).
  - by rewrite delete_insert_eq, delete_id by apply fresh_loc_fresh.
Qed.

(** ** The codec raises exactly on surrogates *)

Lemma encode_char_None (c : Z) :
  Utf8.encode_char c = None <-> is_surrogate c = true.
Proof.
  unfold Utf8.encode_char, is_surrogate.
  destruct (c <? 0x80) eqn:H1; [split; [done | lia] |].
  destruct (c <? 0x800) eqn:H2; [split; [done | lia] |].
  destruct ((0xD800 <=? c) && (c <=? 0xDFFF)); [done |].
  destruct (c <? 0x10000); split; done.
Qed.

Lemma encode_from_ok (obj : pystr) (pos : nat) (s : pystr) :
  no_surrogate s -> exists bytes, Utf8.encode_from obj pos s = Ok bytes.
Proof.
  intros Hs. revert pos.
  induction Hs as [|c s Hc _ IH]; intros pos; simpl; [by eexists |].
  destruct (Utf8.encode_char c) as [bs|] eqn:Hbs.
  - destruct (IH (S pos)) as [rest ->]. by eexists.
  - apply encode_char_None in Hbs. congruence.
Qed.

Lemma encode_from_raise (obj : pystr) (pos : nat) (s : pystr) :
  ~ no_surrogate s ->
  exists start stop,
    Utf8.encode_from obj pos s = Raise (UnicodeEncodeError obj start stop).
Proof.
  revert pos. induction s as [|c s IH]; intros pos Hs.
  - destruct Hs. constructor.
  - simpl. destruct (Utf8.encode_char c) as [bs|] eqn:Hbs; [| by eauto].
    destruct (IH (S pos)) as (start & stop & ->); [| by eauto].
    intros Hs'. apply Hs. constructor; [| done].
    destruct (is_surrogate c) eqn:Hc; [| done].
    apply encode_char_None in Hc. congruence.
Qed.

(** ** Shape of a digest *)

Lemma be_bytes_length (n : nat) (x : Z) : length (SHA512.be_bytes n x) = n.
Proof. unfold SHA512.be_bytes. by rewrite length_map, length_seq. Qed.

Lemma be_bytes_range (n : nat) (x : Z) :
  Forall (fun b => 0 <= b < 256) (SHA512.be_bytes n x).
Proof.
  unfold SHA512.be_bytes. apply List.Forall_forall. intros b Hb.
  apply in_map_iff in Hb as (i & <- & _).
  change 0xff with (Z.ones 8). rewrite Z.land_ones by lia.
  apply Z.mod_pos_bound. lia.
Qed.

Lemma digest_length (msg : list Z) : length (SHA512.digest msg) = 64%nat.
Proof.
  unfold SHA512.digest, SHA512.hwords. cbn [flat_map].
  rewrite !length_app, !be_bytes_length. done.
Qed.

Lemma digest_range (msg : list Z) :
  Forall (fun b => 0 <= b < 256) (SHA512.digest msg).
Proof.
  unfold SHA512.digest. apply Forall_flat_map, Forall_forall.
  intros x _. apply be_bytes_range.
Qed.

Lemma hex_digit_lower (n : Z) : 0 <= n < 16 -> lower_hex (SHA512.hex_digit n).
Proof.
  intros Hn. unfold SHA512.hex_digit, lower_hex.
  assert (Hk : (Z.to_nat n < 16)%nat) by lia.
  apply nth_In. simpl. lia.
Qed.

Lemma hex_byte_lower (b : Z) :
  0 <= b < 256 -> Forall lower_hex (SHA512.hex_byte b).
Proof.
  intros Hb. unfold SHA512.hex_byte.
  constructor; [| constructor; [| constructor]]; apply hex_digit_lower.
  - rewrite Z.shiftr_div_pow2 by lia. change (2 ^ 4) with 16.
    split; [apply Z.div_pos; lia | apply Z.div_lt_upper_bound; lia].
  - change 0xf with (Z.ones 4). rewrite Z.land_ones by lia.
    apply Z.mod_pos_bound. lia.
Qed.

Lemma string_of_list_ascii_length (l : list ascii) :
  String.length (string_of_list_ascii l) = length l.
Proof. induction l; simpl; congruence. Qed.

Lemma hex_length (bs : list Z) :
  String.length (SHA512.hex bs) = (2 * length bs)%nat.
Proof.
  unfold SHA512.hex. rewrite string_of_list_ascii_length.
  induction bs as [|b bs IH]; simpl; lia.
Qed.

Lemma hex_lower (bs : list Z) :
  Forall (fun b => 0 <= b < 256) bs ->
  Forall lower_hex (list_ascii_of_string (SHA512.hex bs)).
Proof.
  intros Hbs. unfold SHA512.hex.
  rewrite list_ascii_of_string_of_list_ascii.
  apply Forall_flat_map. eapply Forall_impl; [exact Hbs |].
  intros b Hb. by apply hex_byte_lower.
Qed.

(** ** The word list *)

Lemma readlines_concat (text : pystr) : concat (Hashing.readlines text) = text.
Proof.
  induction text as [|c text IH]; simpl; [done |].
  destruct (c =? 10); simpl; [by rewrite IH |].
  destruct (Hashing.readlines text) as [|line lines]; simpl in *;
    by rewrite <- IH.
Qed.

Lemma readlines_no_surrogate (text w : pystr) :
  no_surrogate text -> In w (Hashing.readlines text) -> no_surrogate w.
Proof.
  intros Ht Hw. rewrite <- (readlines_concat text) in Ht.
  unfold no_surrogate in *. rewrite Forall_concat in Ht.
  rewrite Forall_forall in Ht. apply Ht. by apply list_elem_of_In.
Qed.

(** ** Chunking *)

Lemma chunks_fuel_nil {A} (fuel size : nat) : chunks_fuel fuel size (@nil A) = [].
Proof. destruct fuel; simpl; [done |]. by rewrite take_nil. Qed.

Lemma chunks_fuel_enough {A} (size fuel1 fuel2 : nat) (l : list A) :
  (0 < size)%nat -> (length l <= fuel1)%nat -> (length l <= fuel2)%nat ->
  chunks_fuel fuel1 size l = chunks_fuel fuel2 size l.
Proof.
  intros Hsize. revert fuel2 l.
  induction fuel1 as [|fuel1 IH]; intros fuel2 l H1 H2.
  - destruct l; [| simpl in H1; lia]. by rewrite !chunks_fuel_nil.
  - destruct fuel2 as [|fuel2].
    { destruct l; [| simpl in H2; lia]. by rewrite !chunks_fuel_nil. }
    simpl. destruct (take size l) as [|x xs] eqn:Ht; [done |].
    f_equal. assert (l <> []) by (intros ->; by rewrite take_nil in Ht).
    assert (0 < length l)%nat by (destruct l; simpl; [done | lia]).
    apply IH; rewrite length_drop; lia.
Qed.

Lemma chunks_nil {A} (size : nat) : chunks size (@nil A) = [].
Proof. done. Qed.

Lemma chunks_cons {A} (size : nat) (l : list A) :
  (0 < size)%nat -> l <> [] ->
  chunks size l = take size l :: chunks size (drop size l).
Proof.
  intros Hsize Hl. unfold chunks.
  destruct l as [|a l]; [done |]. cbn [length chunks_fuel].
  destruct (take size (a :: l)) as [|x xs] eqn:Ht.
  { destruct size; [lia | done]. }
  f_equal. apply chunks_fuel_enough; [done | | done].
  rewrite length_drop. simpl. lia.
Qed.

(** Induction along the way [chunks] walks down a list. *)
Lemma chunks_ind {A} (size : nat) (P : list A -> Prop) :
  (0 < size)%nat ->
  P [] ->
  (forall l, l <> [] -> P (drop size l) -> P l) ->
  forall l, P l.
Proof.
  intros Hsize Hnil Hstep l.
  assert (H : forall n l, (length l <= n)%nat -> P l); [| by eapply H].
  clear l. induction n as [|n IH]; intros l Hl.
  - destruct l; [done | simpl in Hl; lia].
  - destruct l as [|a l]; [done |].
    apply Hstep; [done |]. apply IH.
    rewrite length_drop. simpl in *. lia.
Qed.

Lemma chunks_concat {A} (size : nat) (l : list A) :
  (0 < size)%nat -> concat (chunks size l) = l.
Proof.
  intros Hsize. revert l. apply (chunks_ind size); [done | done |].
  intros l Hl IH.
  rewrite chunks_cons by done. simpl. rewrite IH. apply take_drop.
Qed.

(** Rounded-up quotient, as [length // chunksize + bool(length % chunksize)]. *)
Lemma ceil_div_step (n size : nat) :
  (0 < size)%nat -> (0 < n)%nat ->
  (if (n mod size =? 0)%nat then (n / size)%nat else S (n / size)) =
  S (if ((n - size) mod size =? 0)%nat
     then ((n - size) / size)%nat else S ((n - size) / size)).
Proof.
  intros Hsize Hn. destruct (decide (n < size)%nat) as [Hlt|Hge].
  - replace (n - size)%nat with 0%nat by lia.
    rewrite Nat.Div0.mod_0_l, Nat.Div0.div_0_l.
    rewrite Nat.mod_small, Nat.div_small by done.
    destruct (Nat.eqb_spec n 0); [lia | done].
  - remember (n - size)%nat as m eqn:Hm.
    assert (Hn' : n = (m + 1 * size)%nat) by lia. rewrite Hn'.
    rewrite Nat.Div0.mod_add, Nat.div_add by lia.
    destruct (m mod size =? 0)%nat; lia.
Qed.

Lemma chunks_length {A} (size : nat) (l : list A) :
  (0 < size)%nat ->
  length (chunks size l) =
  if (length l mod size =? 0)%nat
  then (length l / size)%nat else S (length l / size).
Proof.
  intros Hsize. revert l. apply (chunks_ind size); [done | |].
  - simpl. by rewrite Nat.Div0.mod_0_l, Nat.Div0.div_0_l.
  - intros l Hl IH. rewrite chunks_cons by done. cbn [length]. rewrite IH, length_drop.
    symmetry. apply ceil_div_step; [done |].
    destruct l; [done | simpl; lia].
Qed.

Lemma chunks_blocks {A} (size : nat) (l : list A) :
  (0 < size)%nat -> blocks_of size (chunks size l).
Proof.
  intros Hsize. revert l. apply (chunks_ind size); [done | |].
  - constructor.
  - intros l Hl IH. rewrite chunks_cons by done.
    destruct (decide (length l <= size)%nat) as [Hle|Hgt].
    + rewrite (drop_ge l size), chunks_nil by done.
      apply blocks_last. rewrite length_take. lia.
    + apply blocks_cons; [| done]. rewrite length_take. lia.
Qed.

Lemma blocks_of_lengths {X Y} (size : nat) (bs : list (list X))
    (cs : list (list Y)) :
  length <$> bs = length <$> cs -> blocks_of size cs -> blocks_of size bs.
Proof.
  intros Hlen Hcs. revert bs Hlen.
  induction Hcs as [|c Hc|c cs Hc _ IH]; intros bs Hlen.
  - destruct bs; [constructor | done].
  - destruct bs as [|b [|? ?]]; try done.
    injection Hlen as Hb. apply blocks_last. lia.
  - destruct bs as [|b bs]; [done |].
    injection Hlen as Hb Hbs. apply blocks_cons; [lia | by apply IH].
Qed.

(** Storing a chunk's results in its slice replaces that block. *)
Lemma slice_assign_concat {X} (size : nat) (bs : list (list X)) (i : nat)
    (r : list X) :
  blocks_of size bs -> (i < length bs)%nat ->
  Pool.slice_assign (concat bs) (i * size) ((i + 1) * size) r
  = concat (<[i := r]> bs).
Proof.
  unfold Pool.slice_assign. intros Hbs. revert i.
  induction Hbs as [|b Hb|b bs Hb _ IH]; intros i Hi; simpl in Hi.
  - lia.
  - replace i with 0%nat by lia. simpl.
    rewrite !app_nil_r, drop_ge by lia. by rewrite app_nil_r.
  - destruct i as [|i]; simpl.
    + rewrite Nat.add_0_r, drop_app_length' by done. done.
    + rewrite take_app_add', drop_app_add' by done.
      rewrite <- app_assoc. f_equal. apply IH. lia.
Qed.

Lemma concat_replicate_blocks {X Y} (x : X) (cs : list (list Y)) :
  concat ((fun c => replicate (length c) x) <$> cs)
  = replicate (length (concat cs)) x.
Proof.
  induction cs as [|c cs IH]; csimpl; [done |].
  by rewrite IH, length_app, replicate_add.
Qed.

(** ** The process monad *)

Lemma bind_ret_r {A} (m : M A) (s : proc) : (m ≫= mret) s = m s.
Proof. unfold mbind, M_bind, mret, M_ret. by destruct (m s) as [[?|?] ?]. Qed.

Lemma map_list_pure {A B} (f : A -> M B) (g : A -> res B) (l : list A)
    (s : proc) :
  (forall a s, (f a s).1 = g a) -> (map_list f l s).1 = map_res g l.
Proof.
  intros Hf. revert s. induction l as [|a l IH]; intros s; simpl; [done |].
  unfold mbind, M_bind. specialize (Hf a s).
  destruct (f a s) as [[b|e] s1]; simpl in Hf; rewrite <- Hf; [| done].
  specialize (IH s1). destruct (map_list f l s1) as [[bs|e] s2];
    simpl in IH; by rewrite <- IH.
Qed.

Lemma map_list_length {A B} (f : A -> M B) (l : list A) (s : proc) rs :
  (map_list f l s).1 = Ok rs -> length rs = length l.
Proof.
  revert s rs. induction l as [|a l IH]; intros s rs; simpl.
  - by intros [= <-].
  - unfold mbind, M_bind. destruct (f a s) as [[b|e] s1]; [| done].
    specialize (IH s1). destruct (map_list f l s1) as [[bs|e] s2]; [| done].
    simpl. intros [= <-]. simpl. f_equal. by apply IH.
Qed.

Lemma map_res_length {A B} (g : A -> res B) (l : list A) rs :
  map_res g l = Ok rs -> length rs = length l.
Proof.
  revert rs. induction l as [|a l IH]; intros rs; simpl.
  - by intros [= <-].
  - destruct (g a); [| done]. destruct (map_res g l); [| done].
    intros [= <-]. simpl. f_equal. by apply IH.
Qed.

(** ** Filing chunk outcomes *)

Lemma MapResult_set_unfold {R} cb ecb (i : nat) (sr : res (list R))
    (mr : Pool.MapResult R) :
  Pool.MapResult_set cb ecb i sr mr =
  let v := next_value (Pool.chunksize mr) i sr (Pool.value mr) in
  let left := Pool.number_left mr - 1 in
  if left =? 0 then
    _ ← notify cb ecb v;
    mret (Pool.MkMapResult v (Pool.chunksize mr) left true)
  else mret (Pool.MkMapResult v (Pool.chunksize mr) left (Pool.ready mr)).
Proof.
  unfold Pool.MapResult_set, next_value, notify.
  destruct sr, (Pool.value mr); done.
Qed.

Lemma first_failure_app {R} (outcomes : list (res (list R))) (P Q : list nat) :
  first_failure outcomes (P ++ Q) =
  match first_failure outcomes P with
  | Some e => Some e
  | None => first_failure outcomes Q
  end.
Proof.
  induction P as [|i P IH]; simpl; [done |].
  by destruct (outcomes !! i) as [[?|?]|].
Qed.

Section filing.
Context {R A : Type}.
Variables (cb : option (list (option R) -> M unit))
          (ecb : option (exn -> M unit)).
Variables (cs : nat) (outcomes : list (res (list R)))
          (batches : list (list A)).
Hypothesis batches_shape : blocks_of cs batches.
Hypothesis outcomes_length : length outcomes = length batches.
Hypothesis outcomes_shape : forall i rs c,
  outcomes !! i = Some (Ok rs) -> batches !! i = Some c ->
  length rs = length c.

Lemma block_length P i c :
  batches !! i = Some c -> length (block outcomes P i c) = length c.
Proof.
  intros Hc. unfold block. case_bool_decide; [| by rewrite length_replicate].
  destruct (outcomes !! i) as [[rs|e]|] eqn:Ho;
    rewrite ?length_replicate; [| done..].
  rewrite length_fmap. eauto.
Qed.

Lemma blocks_shape P : blocks_of cs (imap (block outcomes P) batches).
Proof.
  apply (blocks_of_lengths _ _ batches); [| done].
  apply list_eq. intros i. rewrite !list_lookup_fmap, list_lookup_imap.
  destruct (batches !! i) as [c|] eqn:Hc; simpl; [| done].
  by rewrite block_length.
Qed.

Lemma blocks_snoc P x result :
  outcomes !! x = Some (Ok result) ->
  <[x := Some <$> result]> (imap (block outcomes P) batches)
  = imap (block outcomes (P ++ [x])) batches.
Proof.
  intros Hx. apply list_eq. intros i.
  destruct (decide (i = x)) as [->|Hne].
  - rewrite list_lookup_imap.
    destruct (batches !! x) as [c|] eqn:Hc; simpl.
    + rewrite list_lookup_insert_eq
        by (rewrite length_imap; by eapply lookup_lt_Some).
      unfold block. rewrite bool_decide_eq_true_2, Hx; [done |].
      apply elem_of_app. right. by left.
    + rewrite list_insert_ge, list_lookup_imap, Hc; [done |].
      rewrite length_imap. by apply lookup_ge_None.
  - rewrite list_lookup_insert_ne, !list_lookup_imap by done.
    destruct (batches !! i) as [c|]; simpl; [| done]. f_equal.
    unfold block. destruct (decide (i ∈ P)).
    + rewrite !bool_decide_eq_true_2; [done | | done].
      apply elem_of_app. by left.
    + rewrite !bool_decide_eq_false_2; [done | | done].
      rewrite elem_of_app, list_elem_of_singleton. tauto.
Qed.

Lemma filed_snoc P x sr :
  outcomes !! x = Some sr ->
  next_value cs x sr (filed outcomes batches P) = filed outcomes batches (P ++ [x]).
Proof.
  intros Hx. unfold filed, next_value. rewrite first_failure_app. simpl.
  rewrite Hx. destruct (first_failure outcomes P) as [e0|].
  { by destruct sr. }
  destruct sr as [result|e]; [| done]. f_equal.
  rewrite slice_assign_concat.
  - by rewrite (blocks_snoc _ _ _ Hx).
  - apply blocks_shape.
  - rewrite length_imap, <- outcomes_length. by eapply lookup_lt_Some.
Qed.

(** Once every scheduled outcome is filed the job is ready, its value is
    the filed one, and exactly one callback has run, on that value. *)
Lemma handle_results_filed (sched P : list nat) (mr : Pool.MapResult R)
    (s : proc) :
  sched <> [] ->
  (forall i, i ∈ sched -> (i < length outcomes)%nat) ->
  Pool.value mr = filed outcomes batches P ->
  Pool.chunksize mr = cs ->
  Pool.number_left mr = Z.of_nat (length sched) ->
  Pool.handle_results cb ecb outcomes sched mr s =
  (_ ← notify cb ecb (filed outcomes batches (P ++ sched));
   mret (Pool.MkMapResult (filed outcomes batches (P ++ sched)) cs 0 true)) s.
Proof.
  revert P mr s. induction sched as [|x sched IH]; intros P mr s Hne Hlt Hv Hcs Hn.
  { done. }
  destruct (outcomes !! x) as [sr|] eqn:Hx.
  2:{ apply lookup_ge_None in Hx.
      assert (x < length outcomes)%nat by (apply Hlt; left). lia. }
  cbn [Pool.handle_results]. rewrite Hx, MapResult_set_unfold.
  rewrite Hv, Hcs, (filed_snoc _ _ _ Hx). cbn zeta.
  destruct sched as [|y sched].
  - rewrite Hn. cbn [length Z.of_nat Pos.of_succ_nat Z.sub Z.add Z.opp
      Z.pos_sub Z.eqb].
    cbn [Pool.handle_results]. by rewrite bind_ret_r.
  - destruct (Pool.number_left mr - 1 =? 0) eqn:Hz.
    { apply Z.eqb_eq in Hz. rewrite Hn in Hz. cbn [length] in Hz. lia. }
    unfold mbind at 1. unfold M_bind, mret at 1. unfold M_ret.
    rewrite (IH (P ++ [x])); [| done | | done | done | ].
    2:{ intros i Hi. apply Hlt. by right. }
    + by rewrite <- app_assoc.
    + rewrite Hn. simpl. lia.
Qed.

End filing.

(** ** A job over a function whose outcome ignores the process state *)

Lemma chunks_zero {A} (l : list A) : chunks 0 l = [].
Proof. unfold chunks. by destruct (length l). Qed.

Lemma n_chunks_spec {A} (processes : nat) (items : list A)
    (chunksize : option nat) :
  Pool.n_chunks processes (length items) chunksize
  = length (chunks (Pool.chunksize_for processes (length items) chunksize) items).
Proof.
  unfold Pool.n_chunks.
  destruct (Pool.chunksize_for _ _ _) as [|cs] eqn:Hcs.
  - by rewrite chunks_zero.
  - rewrite chunks_length by lia. done.
Qed.

Lemma complete_elem (n : nat) (sched : list nat) (i : nat) :
  Pool.complete n sched -> i ∈ sched <-> (i < n)%nat.
Proof.
  intros Hs. unfold Pool.complete in Hs. rewrite Hs, elem_of_seq. lia.
Qed.

Lemma complete_length (n : nat) (sched : list nat) :
  Pool.complete n sched -> length sched = n.
Proof.
  intros Hs. unfold Pool.complete in Hs. by rewrite Hs, length_seq.
Qed.

Section pure_job.
Context {A R : Type}.
Variables (f : A -> M R) (g : A -> res R).
Hypothesis f_pure : forall a s, (f a s).1 = g a.

Lemma worker_outcomes (w : nat -> proc) (batches : list (list A)) :
  imap (fun i batch => Pool.worker f (w i) batch) batches
  = map_res g <$> batches.
Proof.
  apply list_eq. intros i.
  rewrite list_lookup_imap, list_lookup_fmap.
  destruct (batches !! i); simpl; [| done].
  unfold Pool.worker. by rewrite (map_list_pure f g).
Qed.

Lemma map_async_filed (processes : nat) (items : list A)
    (chunksize : option nat) cb ecb (w : nat -> proc) (sched : list nat)
    (s : proc) (cs : nat) :
  cs = Pool.chunksize_for processes (length items) chunksize ->
  items <> [] -> (0 < cs)%nat ->
  Pool.complete (length (chunks cs items)) sched ->
  Pool.map_async processes f items chunksize cb ecb w sched s =
  (_ ← notify cb ecb (filed (map_res g <$> chunks cs items) (chunks cs items) sched);
   mret (Pool.MkMapResult
           (filed (map_res g <$> chunks cs items) (chunks cs items) sched)
           cs 0 true)) s.
Proof.
  intros Hcs Hitems Hpos Hsched.
  unfold Pool.map_async, Pool.get_tasks. rewrite <- Hcs.
  rewrite worker_outcomes.
  assert (Hn : (0 < length (chunks cs items))%nat).
  { rewrite chunks_cons by done. simpl. lia. }
  apply (handle_results_filed cb ecb cs _ (chunks cs items)) with (P := []).
  - by apply chunks_blocks.
  - by rewrite length_fmap.
  - intros i rs c Ho Hc.
    rewrite list_lookup_fmap, Hc in Ho. simpl in Ho.
    injection Ho as Ho. by apply map_res_length in Ho.
  - intros ->. apply complete_length in Hsched. simpl in Hsched. lia.
  - intros i Hi. rewrite length_fmap. by apply (complete_elem _ sched).
  - unfold Pool.new_result, filed. destruct cs as [|cs']; [lia |].
    cbn [Pool.value first_failure]. f_equal.
    rewrite <- (chunks_concat (S cs') items) at 1 by lia.
    rewrite <- concat_replicate_blocks. f_equal.
    apply list_eq. intros i. rewrite list_lookup_fmap, list_lookup_imap.
    by destruct (chunks (S cs') items !! i).
  - unfold Pool.new_result. by destruct cs.
  - rewrite (complete_length _ _ Hsched).
    rewrite chunks_length by done. unfold Pool.new_result.
    destruct cs as [|cs']; [lia |]. cbn [Pool.number_left].
    destruct (length items mod S cs' =? 0)%nat; lia.
Qed.

End pure_job.

(** ** What a completed job holds *)

Lemma map_res_app {A B} (g : A -> res B) (l k : list A) :
  map_res g (l ++ k) =
  match map_res g l with
  | Ok rl =>
      match map_res g k with
      | Ok rk => Ok (rl ++ rk)
      | Raise e => Raise e
      end
  | Raise e => Raise e
  end.
Proof.
  induction l as [|a l IH]; simpl.
  - by destruct (map_res g k).
  - destruct (g a); [| done]. rewrite IH.
    destruct (map_res g l); [| done]. by destruct (map_res g k).
Qed.

Lemma map_res_concat_ok {A B} (g : A -> res B) (bs : list (list A)) rs :
  map_res g (concat bs) = Ok rs ->
  Forall (fun b => exists r, map_res g b = Ok r) bs /\
  concat ((fun b => match map_res g b with
                    | Ok r => Some <$> r
                    | Raise _ => []
                    end) <$> bs) = Some <$> rs.
Proof.
  revert rs. induction bs as [|b bs IH]; intros rs; csimpl.
  - by intros [= <-].
  - rewrite map_res_app. destruct (map_res g b) as [rb|] eqn:Hb; [| done].
    destruct (map_res g (concat bs)) as [rbs|]; [| done].
    intros [= <-]. destruct (IH rbs eq_refl) as [Hall Hcat].
    split; [constructor; eauto |]. by rewrite Hcat, fmap_app.
Qed.

Lemma map_res_concat_raise {A B} (g : A -> res B) (bs : list (list A)) e :
  map_res g (concat bs) = Raise e ->
  exists i b e', bs !! i = Some b /\ map_res g b = Raise e'.
Proof.
  revert e. induction bs as [|b bs IH]; intros e; csimpl; [done |].
  rewrite map_res_app. destruct (map_res g b) as [rb|e'] eqn:Hb.
  - destruct (map_res g (concat bs)) as [rbs|e'']; [done |].
    intros _. destruct (IH e'' eq_refl) as (i & b' & e' & Hi & He).
    by exists (S i), b', e'.
  - intros _. by exists 0%nat, b, e'.
Qed.

Lemma map_res_raise_elem {A B} (g : A -> res B) (l : list A) e :
  map_res g l = Raise e -> exists a, In a l /\ g a = Raise e.
Proof.
  induction l as [|a l IH]; simpl; [done |].
  destruct (g a) as [b|e'] eqn:Ha.
  - destruct (map_res g l); [done |]. intros [= ->].
    destruct (IH eq_refl) as (a' & Hin & Ha'). eauto.
  - intros [= ->]. eauto.
Qed.

Lemma map_res_ok_all {A B} (g : A -> res B) (l : list A) rs a :
  map_res g l = Ok rs -> In a l -> exists b, g a = Ok b.
Proof.
  revert rs. induction l as [|a' l IH]; intros rs; simpl; [done |].
  destruct (g a') as [b|] eqn:Ha; [| done].
  destruct (map_res g l) as [bs|]; [| done].
  intros _ [<- | Hin]; eauto.
Qed.

Lemma first_failure_None {R} (outcomes : list (res (list R))) (sched : list nat) :
  (forall i e, outcomes !! i <> Some (Raise e)) ->
  first_failure outcomes sched = None.
Proof.
  intros Hok. induction sched as [|i sched IH]; simpl; [done |].
  destruct (outcomes !! i) as [[rs|e]|] eqn:Hi; [done | | done].
  by destruct (Hok i e).
Qed.

Lemma first_failure_intro {R} (outcomes : list (res (list R)))
    (sched : list nat) i e :
  i ∈ sched -> outcomes !! i = Some (Raise e) ->
  exists e', first_failure outcomes sched = Some e'.
Proof.
  intros Hin Hi. induction sched as [|j sched IH]; simpl.
  - by apply not_elem_of_nil in Hin.
  - destruct (outcomes !! j) as [[rs|e']|] eqn:Hj; [| by eauto |].
    + apply elem_of_cons in Hin as [->|Hin]; [congruence | eauto].
    + apply elem_of_cons in Hin as [->|Hin]; [congruence | eauto].
Qed.

Lemma first_failure_elim {R} (outcomes : list (res (list R)))
    (sched : list nat) e :
  first_failure outcomes sched = Some e ->
  exists i, i ∈ sched /\ outcomes !! i = Some (Raise e).
Proof.
  induction sched as [|j sched IH]; simpl; [done |].
  destruct (outcomes !! j) as [[rs|e']|] eqn:Hj.
  - intros H. destruct (IH H) as (i & Hi & He). exists i. split; [by right | done].
  - intros [= ->]. exists j. split; [by left | done].
  - intros H. destruct (IH H) as (i & Hi & He). exists i. split; [by right | done].
Qed.

Section completed_job.
Context {A R : Type}.
Variables (g : A -> res R) (cs : nat) (items : list A) (sched : list nat).
Hypothesis cs_pos : (0 < cs)%nat.
Hypothesis sched_complete : Pool.complete (length (chunks cs items)) sched.

Lemma filed_ok (rs : list R) :
  map_res g items = Ok rs ->
  filed (map_res g <$> chunks cs items) (chunks cs items) sched
  = Ok (Some <$> rs).
Proof.
  intros Hrs. rewrite <- (chunks_concat cs items) in Hrs by done.
  apply map_res_concat_ok in Hrs as [Hall Hcat].
  unfold filed. rewrite first_failure_None.
  2:{ intros i e. rewrite list_lookup_fmap.
      destruct (chunks cs items !! i) as [b|] eqn:Hb; simpl; [| done].
      rewrite Forall_forall in Hall.
      destruct (Hall b) as [r Hr]; [by eapply list_elem_of_lookup_2 |].
      rewrite Hr. done. }
  f_equal. rewrite <- Hcat. f_equal.
  apply list_eq. intros i. rewrite list_lookup_imap, list_lookup_fmap.
  destruct (chunks cs items !! i) as [b|] eqn:Hb; simpl; [| done].
  f_equal. unfold block. rewrite bool_decide_eq_true_2.
  2:{ apply (complete_elem _ _ _ sched_complete). by eapply lookup_lt_Some. }
  rewrite list_lookup_fmap, Hb. simpl.
  rewrite Forall_forall in Hall.
  destruct (Hall b) as [r Hr]; [by eapply list_elem_of_lookup_2 |].
  by rewrite Hr.
Qed.

Lemma filed_raise (e : exn) :
  map_res g items = Raise e ->
  exists e' a,
    filed (map_res g <$> chunks cs items) (chunks cs items) sched = Raise e' /\
    In a items /\ g a = Raise e'.
Proof.
  intros He. rewrite <- (chunks_concat cs items) in He by done.
  apply map_res_concat_raise in He as (i & b & e1 & Hb & He1).
  destruct (first_failure_intro (map_res g <$> chunks cs items) sched i e1)
    as [e' He'].
  { apply (complete_elem _ _ _ sched_complete). by eapply lookup_lt_Some. }
  { by rewrite list_lookup_fmap, Hb; simpl; rewrite He1. }
  unfold filed. rewrite He'.
  apply first_failure_elim in He' as (j & _ & Hj).
  rewrite list_lookup_fmap in Hj.
  destruct (chunks cs items !! j) as [c|] eqn:Hc; simpl in Hj; [| done].
  injection Hj as Hj. apply map_res_raise_elem in Hj as (a & Ha & Hga).
  exists e', a. split; [done |]. split; [| done].
  rewrite <- (chunks_concat cs items) by done.
  apply in_concat. exists c. split; [| done].
  apply list_elem_of_In. by eapply list_elem_of_lookup_2.
Qed.

End completed_job.

(** ** [Pool.map] over a function whose outcome ignores the process state *)

Lemma chunksize_for_default_pos (processes len : nat) :
  (0 < len)%nat -> (0 < Pool.chunksize_for processes len None)%nat.
Proof.
  intros Hlen. unfold Pool.chunksize_for.
  destruct (Nat.eqb_spec len 0) as [|_]; [lia |].
  destruct (Nat.eqb_spec (len mod (processes * 4)) 0) as [Hm|_]; [| lia].
  destruct (decide (processes * 4 = 0)%nat) as [Hz|Hz].
  - rewrite Hz in Hm. simpl in Hm. lia.
  - pose proof (Nat.div_mod_eq len (processes * 4)). 
    destruct (len / (processes * 4))%nat; lia.
Qed.

Lemma chunksize_for_given (processes len c : nat) :
  (0 < len)%nat -> Pool.chunksize_for processes len (Some c) = c.
Proof.
  intros Hlen. unfold Pool.chunksize_for.
  by destruct (Nat.eqb_spec len 0) as [|_]; [lia |].
Qed.

Lemma length_pos_nonnil {A} (l : list A) : l <> [] -> (0 < length l)%nat.
Proof. destruct l; simpl; [done | lia]. Qed.

Lemma map_async_empty {A R} processes (f : A -> M R) chunksize cb ecb w sched s :
  Pool.complete (Pool.n_chunks processes 0 chunksize) sched ->
  Pool.map_async processes f [] chunksize cb ecb w sched s
  = (Ok (Pool.MkMapResult (Ok []) 0 0 true), s).
Proof.
  intros Hs. apply complete_length in Hs.
  unfold Pool.n_chunks, Pool.chunksize_for in Hs. simpl in Hs.
  destruct sched; [| done]. done.
Qed.

Section pool_map.
Context {A R : Type}.
Variables (f : A -> M R) (g : A -> res R).
Hypothesis f_pure : forall a s, (f a s).1 = g a.
Variables (processes : nat) (items : list A) (w : nat -> proc)
          (sched : list nat) (s : proc).
Hypothesis sched_complete :
  Pool.complete (Pool.n_chunks processes (length items) None) sched.

Lemma pool_map_ok (rs : list R) :
  map_res g items = Ok rs ->
  Pool.map processes f items w sched s = (Ok (Some (Some <$> rs)), s).
Proof using f_pure sched_complete.
  intros Hrs. unfold Pool.map.
  destruct (decide (items = [])) as [->|Hne].
  - unfold mbind, M_bind. rewrite map_async_empty by done.
    injection Hrs as <-. done.
  - pose proof (chunksize_for_default_pos processes _ (length_pos_nonnil _ Hne)).
    pose proof sched_complete as Hs. rewrite n_chunks_spec in Hs.
    unfold mbind at 1. unfold M_bind.
    rewrite (map_async_filed f g f_pure _ _ _ _ _ _ _ _ _ eq_refl Hne H Hs).
    by rewrite (filed_ok g _ items sched H Hs rs Hrs).
Qed.

Lemma pool_map_raise (e : exn) :
  map_res g items = Raise e ->
  exists e' a,
    Pool.map processes f items w sched s = (Raise e', s) /\
    In a items /\ g a = Raise e'.
Proof using f_pure sched_complete.
  intros He. unfold Pool.map.
  assert (Hne : items <> []) by (by intros ->).
  pose proof (chunksize_for_default_pos processes _ (length_pos_nonnil _ Hne)).
  pose proof sched_complete as Hs. rewrite n_chunks_spec in Hs.
  destruct (filed_raise g _ items sched H Hs e He)
    as (e' & a & Hf & Ha & Hga).
  exists e', a. split; [| done].
  unfold mbind at 1. unfold M_bind.
  rewrite (map_async_filed f g f_pure _ _ _ _ _ _ _ _ _ eq_refl Hne H Hs).
  by rewrite Hf.
Qed.

End pool_map.

Lemma bind_ret_fst {A B} (m : M A) (h : A -> B) (s : proc) :
  ((a ← m; mret (h a)) s).1 =
  match (m s).1 with
  | Ok a => Ok (h a)
  | Raise e => Raise e
  end.
Proof. unfold mbind, M_bind. by destruct (m s) as [[a|e] s']. Qed.



Lemma hash_word_pure (w : pystr) (s : proc) :
  (Hashing.hash_word w s).1 = hash_word_spec w.
Proof. by rewrite hash_word_run. Qed.

(** ** Lines *)



(** ** The worker function of the asynchronous example *)

Lemma task_pure (v : Z) (s : proc) : (Async.task v s).1 = task_outcome v.
Proof.
  unfold Async.task, task_outcome. by destruct ((v =? 42) || (v =? 13)).
Qed.

Lemma sentinel_test (v : Z) :
  (v =? 42) || (v =? 13) = true <-> Async.sentinel v.
Proof. unfold Async.sentinel. lia. Qed.

Lemma task_outcome_raise (v : Z) (e : exn) :
  task_outcome v = Raise e <-> Async.sentinel v /\ e = impossible v.
Proof.
  unfold task_outcome, impossible. rewrite <- sentinel_test.
  destruct ((v =? 42) || (v =? 13)); split;
    try done; intros H; (try by injection H as <-); destruct H; congruence.
Qed.

Lemma map_res_task_ok (items : list Z) :
  (forall v, In v items -> ~ Async.sentinel v) ->
  exists rs, map_res task_outcome items = Ok rs.
Proof.
  induction items as [|v items IH]; intros Hall; simpl; [by eexists |].
  destruct (task_outcome v) as [[]|e] eqn:Hv.
  - destruct IH as [rs ->]; [by intros ? ?; apply Hall; right | by eexists].
  - apply task_outcome_raise in Hv as [Hv _]. destruct (Hall v); [by left | done].
Qed.

Lemma map_res_task_raise (items : list Z) :
  (exists v, In v items /\ Async.sentinel v) ->
  exists e, map_res task_outcome items = Raise e.
Proof.
  intros (v & Hin & Hv).
  destruct (map_res task_outcome items) as [rs|e] eqn:Hrs; [| by eexists].
  destruct (map_res_ok_all _ _ _ _ Hrs Hin) as [b Hb].
  assert (task_outcome v = Raise (impossible v)) by (by apply task_outcome_raise).
  congruence.
Qed.

Lemma map_res_task_first (chunk : list Z) :
  map_res task_outcome chunk =
  match first_sentinel chunk with
  | Some v => Raise (impossible v)
  | None => Ok (replicate (length chunk) tt)
  end.
Proof.
  unfold first_sentinel. induction chunk as [|v chunk IH]; simpl; [done |].
  unfold task_outcome at 1, impossible.
  destruct ((v =? 42) || (v =? 13)); [done |].
  rewrite IH. by destruct (find _ chunk).
Qed.

Lemma first_failure_task (batches : list (list Z)) (sched : list nat) :
  first_failure (map_res task_outcome <$> batches) sched
  = impossible <$> reported_sentinel batches sched.
Proof.
  induction sched as [|i sched IH]; simpl; [done |].
  rewrite list_lookup_fmap. destruct (batches !! i) as [c|]; simpl; [| done].
  rewrite map_res_task_first. by destruct (first_sentinel c).
Qed.

(** The error callback's output, exactly. *)
Lemma task_job_stdout_exact (items : list Z) (cs : nat) (w : nat -> proc)
    (sched : list nat) (s : proc) :
  (0 < cs)%nat ->
  Pool.complete (Pool.n_chunks 8 (length items) (Some cs)) sched ->
  stdout (Pool.map_async 8 Async.task items (Some cs) None
            (Some Async.galactic_error) w sched s).2
  = stdout s ++
    match reported_sentinel (chunks cs items) sched with
    | Some v => [Async.banner (impossible v)]
    | None => []
    end.
Proof.
  intros Hcs Hsched.
  destruct (decide (items = [])) as [->|Hne].
  { rewrite map_async_empty by done. rewrite chunks_nil. cbn [snd].
    assert (reported_sentinel [] sched = None) as ->
      by (clear; induction sched; simpl; done).
    by rewrite app_nil_r. }
  pose proof (length_pos_nonnil _ Hne) as Hlen.
  pose proof Hsched as Hsched'.
  rewrite n_chunks_spec, chunksize_for_given in Hsched' by done.
  rewrite (map_async_filed _ _ task_pure 8 items (Some cs) _ _ w sched s cs);
    [| by rewrite chunksize_for_given | done..].
  unfold filed. rewrite first_failure_task.
  destruct (reported_sentinel (chunks cs items) sched) as [v|];
    [by destruct s |].
  cbn [fmap option_fmap option_map notify Pool.call_if_set].
  unfold mbind, M_bind, mret, M_ret. cbn [snd]. by rewrite app_nil_r.
Qed.

(** What the error callback has printed once a job over [task] is done. *)
Lemma task_job_stdout (items : list Z) (cs : nat) (w : nat -> proc)
    (sched : list nat) (s : proc) :
  (0 < cs)%nat ->
  Pool.complete (Pool.n_chunks 8 (length items) (Some cs)) sched ->
  let s' := (Pool.map_async 8 Async.task items (Some cs) None
               (Some Async.galactic_error) w sched s).2 in
  ((exists v, In v items /\ Async.sentinel v) ->
   exists v, In v items /\ Async.sentinel v /\
     stdout s' = stdout s ++ [Async.banner (impossible v)]) /\
  ((forall v, In v items -> ~ Async.sentinel v) -> stdout s' = stdout s).
Proof.
  intros Hcs Hsched s'.
  destruct (decide (items = [])) as [->|Hne].
  { subst s'. rewrite map_async_empty by done. split; [| done].
    by intros (v & [] & _). }
  pose proof (length_pos_nonnil _ Hne) as Hlen.
  pose proof Hsched as Hsched'.
  rewrite n_chunks_spec, chunksize_for_given in Hsched' by done.
  subst s'.
  rewrite (map_async_filed _ _ task_pure 8 items (Some cs) _ _ w sched s cs);
    [| by rewrite chunksize_for_given | done..].
  split.
  - intros Hex. apply map_res_task_raise in Hex as [e He].
    destruct (filed_raise task_outcome cs items sched Hcs Hsched' e He)
      as (e' & v & Hf & Hin & Hv).
    apply task_outcome_raise in Hv as [Hv ->].
    exists v. rewrite Hf. by destruct s.
  - intros Hall. apply map_res_task_ok in Hall as [rs Hrs].
    by rewrite (filed_ok task_outcome cs items sched Hcs Hsched' rs Hrs).
Qed.

(** * The claims *)

(** ** Hashing *)

Lemma trace_spec (calls : list call) (s : proc) (w : pystr) (r : res string) :
  In (w, r) (trace calls s) -> r = hash_word_spec w.
Proof.
  revert s. induction calls as [|[w'|g] calls IH]; intros s; simpl.
  - done.
  - rewrite hash_word_run. intros [[= <- <-] | Hin]; [done | eauto].
  - eauto.
Qed.

(** C1.  For every word [w] of the word list, [hash_word(w)] is
    [hexdigest(SHA512(utf8_encode(w)))]: the two expressions have the same
    outcome, and for a file without surrogate code points that outcome is
    the hexadecimal digest of the word's UTF-8 bytes. *)
Theorem hash_word_is_sha512_hexdigest (text w : pystr) (s : proc) :
  In w (Hashing.readlines text) ->
  (Hashing.hash_word w s).1 = hash_word_spec w /\
  (no_surrogate text ->
   exists bytes,
     Utf8.encode w = Ok bytes /\
     (Hashing.hash_word w s).1 = Ok (SHA512.hex (SHA512.digest bytes))).
Proof.
  intros Hw. rewrite hash_word_run. split; [done |].
  intros Ht. apply (readlines_no_surrogate _ _ Ht) in Hw.
  destruct (encode_from_ok w 0 w Hw) as [bytes Hb].
  exists bytes. unfold hash_word_spec, Utf8.encode. by rewrite Hb.
Qed.

Lemma hash_word_is_sha512_hexdigest_witness :
  In second_line (Hashing.readlines two_lines) /\
  (Hashing.hash_word second_line proc0).1 = hash_word_spec second_line /\
  (no_surrogate two_lines ->
   exists bytes,
     Utf8.encode second_line = Ok bytes /\
     (Hashing.hash_word second_line proc0).1
       = Ok (SHA512.hex (SHA512.digest bytes))).
Proof.
  split.
  - simpl. auto.
  - apply (hash_word_is_sha512_hexdigest two_lines second_line proc0).
    simpl. auto.
Defined.

(** C7.  [hash_word] keeps no state across calls: whatever two processes
    did before and between their calls, two calls with the same word return
    the same digest, the one determined by the word alone. *)
Theorem hash_word_stateless (calls1 calls2 : list call) (s1 s2 : proc)
    (w : pystr) (r1 r2 : res string) :
  In (w, r1) (trace calls1 s1) ->
  In (w, r2) (trace calls2 s2) ->
  r1 = r2 /\ r1 = hash_word_spec w.
Proof.
  intros H1 H2. apply trace_spec in H1, H2. by subst.
Qed.

Lemma hash_word_stateless_witness :
  Ok digest_cd = Ok digest_cd /\ Ok digest_cd = hash_word_spec second_line.
Proof.
  apply (hash_word_stateless busy_process (rev busy_process) proc0
           (Proc ∅ (fun _ => 7) 3 ["y"] []) second_line).
  - vm_compute. auto.
  - vm_compute. auto.
Defined.

(** C8, amended.  For every string without surrogate code points (the
    empty string and non-ASCII text included) [hash_word] returns without
    raising, and its result is a string of exactly 128 lowercase
    hexadecimal characters. *)
Theorem hash_word_hex_digest (w : pystr) (s : proc) :
  no_surrogate w ->
  exists h,
    (Hashing.hash_word w s).1 = Ok h /\
    String.length h = 128%nat /\
    Forall lower_hex (list_ascii_of_string h).
Proof.
  intros Hw. rewrite hash_word_run. unfold hash_word_spec, Utf8.encode.
  destruct (encode_from_ok w 0 w Hw) as [bytes ->].
  eexists. split; [done |]. split.
  - by rewrite hex_length, digest_length.
  - apply hex_lower, digest_range.
Qed.

Lemma hash_word_hex_digest_witness :
  no_surrogate [0xe9; 0x20ac; 0x1F600] /\
  exists h,
    (Hashing.hash_word [0xe9; 0x20ac; 0x1F600] proc0).1 = Ok h /\
    String.length h = 128%nat /\
    Forall lower_hex (list_ascii_of_string h).
Proof.
  assert (H : no_surrogate [0xe9; 0x20ac; 0x1F600])
    by (repeat constructor).
  split; [exact H |].
  apply (hash_word_hex_digest [0xe9; 0x20ac; 0x1F600] proc0 H).
Defined.

(** C8 as stated fails: a [str] may hold a lone surrogate, and encoding it
    raises. *)
Lemma hash_word_raises_on_surrogate :
  wf_str [0xD800] /\
  (Hashing.hash_word [0xD800] proc0).1
    = Raise (UnicodeEncodeError [0xD800] 0 1).
Proof.
  split.
  - constructor; [unfold code_point; lia | constructor].
  - reflexivity.
Qed.

(** C3.  The parallel computation refines the serial one: whatever the
    order in which the chunks complete and whatever the state of the
    workers, [set(p.map(hash_word, words))] holds exactly the hashes of
    [{hash_word(w) for w in words}]; both raise when a word cannot be
    hashed. *)
Theorem parallel_refines_serial (words : list pystr) (w : nat -> proc)
    (sched : list nat) (s1 s2 : proc) :
  Pool.complete (Pool.n_chunks Hashing.processes (length words) None) sched ->
  match (Hashing.known_words_serial words s1).1,
        (Hashing.known_words_parallel words w sched s2).1 with
  | Ok serial, Ok (Some parallel) => same_hashes serial parallel
  | Raise _, Raise _ => True
  | _, _ => False
  end.
Proof.
  intros Hsched. unfold Hashing.known_words_serial, Hashing.known_words_parallel.
  rewrite !bind_ret_fst, (map_list_pure _ _ _ _ hash_word_pure).
  destruct (map_res hash_word_spec words) as [hs|e] eqn:Hhs.
  - rewrite (pool_map_ok _ _ hash_word_pure _ _ _ _ _ Hsched hs Hhs). simpl.
    split.
    + rewrite elem_of_list_to_set, list_elem_of_fmap. by intros (h & ? & _).
    + intros h. rewrite !elem_of_list_to_set, list_elem_of_fmap. split.
      * by intros (h' & [= ->] & Hin).
      * eauto.
  - destruct (pool_map_raise _ _ hash_word_pure _ _ w _ s2 Hsched e Hhs)
      as (e' & a & -> & _). done.
Qed.

Lemma parallel_refines_serial_witness :
  match (Hashing.known_words_serial four_words proc0).1,
        (Hashing.known_words_parallel four_words (fun _ => proc0)
           out_of_order proc0).1 with
  | Ok serial, Ok (Some parallel) => same_hashes serial parallel
  | Raise _, Raise _ => True
  | _, _ => False
  end.
Proof.
  apply (parallel_refines_serial four_words (fun _ => proc0) out_of_order
           proc0 proc0).
  unfold Pool.complete, out_of_order. simpl. solve_Permutation.
Defined.



(** ** The asynchronous example *)

(** C6.  For every input that is not a sentinel, [task] draws exactly one
    random float, sleeps for it, prints the pair of the input and the float
    as one line, and returns [None]; the pair is kept nowhere. *)
Theorem task_reports_and_returns_none (value : Z) (s : proc) :
  ~ Async.sentinel value ->
  let random_value := Float (rng s (drawn s) mod 2 ^ 53) 53 in
  0 <= mant random_value < 2 ^ 53 /\
  Async.task value s =
  (Ok tt,
   Proc (heap s) (rng s) (S (drawn s))
     (stdout s ++ [">task(" +:+ pretty value +:+ "):" +:+ format_3f random_value])
     (slept s ++ [random_value])).
Proof.
  intros Hv random_value. split; [apply Z.mod_pos_bound; lia |].
  unfold Async.task. rewrite <- sentinel_test in Hv.
  destruct ((value =? 42) || (value =? 13)); done.
Qed.

Lemma task_reports_and_returns_none_witness :
  ~ Async.sentinel 5 /\
  let random_value := Float (rng proc0 (drawn proc0) mod 2 ^ 53) 53 in
  0 <= mant random_value < 2 ^ 53 /\
  Async.task 5 proc0 =
  (Ok tt,
   Proc (heap proc0) (rng proc0) (S (drawn proc0))
     (stdout proc0 ++ [">task(" +:+ pretty 5 +:+ "):" +:+ format_3f random_value])
     (slept proc0 ++ [random_value])).
Proof.
  assert (H : ~ Async.sentinel 5) by (unfold Async.sentinel; lia).
  split; [exact H |].
  apply (task_reports_and_returns_none 5 proc0 H).
Defined.

(** C2, amended.  [task] raises exactly on the inputs 13 and 42.  When at
    least one submitted input is one of them, [galactic_error] is invoked
    exactly once for the job, with the error raised for one of the
    submitted sentinels: the first sentinel of the first chunk, in
    completion order, that holds one.  Errors of chunks that report later
    are dropped.  When no submitted input is a sentinel the callback is
    never invoked. *)
Theorem error_callback_fires_once (items : list Z) (cs : nat)
    (w : nat -> proc) (sched : list nat) (s : proc) :
  (0 < cs)%nat ->
  Pool.complete (Pool.n_chunks 8 (length items) (Some cs)) sched ->
  let s' := (Pool.map_async 8 Async.task items (Some cs) None
               (Some Async.galactic_error) w sched s).2 in
  (forall v p, is_ok (Async.task v p).1 = false <-> v = 13 \/ v = 42) /\
  (forall v p, v = 13 \/ v = 42 -> Async.task v p = (Raise (impossible v), p)) /\
  stdout s' = stdout s ++
    match reported_sentinel (chunks cs items) sched with
    | Some v => [Async.banner (impossible v)]
    | None => []
    end /\
  ((exists v, In v items /\ (v = 13 \/ v = 42)) ->
   exists v, In v items /\ (v = 13 \/ v = 42) /\
     stdout s' = stdout s ++ [Async.banner (impossible v)]) /\
  ((forall v, In v items -> ~ (v = 13 \/ v = 42)) -> stdout s' = stdout s).
Proof.
  intros Hcs Hsched s'. split; [| split; [| split]].
  4: apply (task_job_stdout items cs w sched s Hcs Hsched).
  3: apply (task_job_stdout_exact items cs w sched s Hcs Hsched).
  - intros v p. rewrite task_pure.
    destruct (task_outcome v) as [[]|e] eqn:Hv; simpl.
    + split; [done |]. intros Hs.
      assert (task_outcome v = Raise (impossible v))
        by (by apply task_outcome_raise). congruence.
    + apply task_outcome_raise in Hv as [Hv _]. by split.
  - intros v p Hv. unfold Async.task. apply sentinel_test in Hv. by rewrite Hv.
Qed.

Lemma error_callback_fires_once_witness :
  let s' := (Pool.map_async 8 Async.task (Async.range 60) (Some 16%nat) None
               (Some Async.galactic_error) (fun _ => proc0) out_of_order
               proc0).2 in
  (forall v p, is_ok (Async.task v p).1 = false <-> v = 13 \/ v = 42) /\
  (forall v p, v = 13 \/ v = 42 -> Async.task v p = (Raise (impossible v), p)) /\
  stdout s' = stdout proc0 ++
    match reported_sentinel (chunks 16 (Async.range 60)) out_of_order with
    | Some v => [Async.banner (impossible v)]
    | None => []
    end /\
  ((exists v, In v (Async.range 60) /\ (v = 13 \/ v = 42)) ->
   exists v, In v (Async.range 60) /\ (v = 13 \/ v = 42) /\
     stdout s' = stdout proc0 ++ [Async.banner (impossible v)]) /\
  ((forall v, In v (Async.range 60) -> ~ (v = 13 \/ v = 42)) ->
   stdout s' = stdout proc0).
Proof.
  apply (error_callback_fires_once (Async.range 60) 16 (fun _ => proc0)
           out_of_order proc0).
  - lia.
  - unfold Pool.complete, out_of_order. simpl. solve_Permutation.
Defined.

(** C2 as stated fails in the notebook's own run: 42 is submitted and
    [task] raises for it in the third chunk, yet when the first chunk
    reports first the callback is invoked with the error for 13 only. *)
Lemma second_error_is_dropped :
  In 42 (Async.range 60) /\
  Pool.complete (Pool.n_chunks 8 60 (Some 16%nat)) [0; 1; 2; 3]%nat /\
  (Async.task 42 proc0).1 = Raise (impossible 42) /\
  Pool.worker Async.task proc0 (Z.of_nat <$> seq 32 16) = Raise (impossible 42) /\
  stdout (Async.issue (fun _ => proc0) [0; 1; 2; 3]%nat proc0).2
    = ["***13 is an impossible value!***"]%string /\
  ~ In (Async.banner (impossible 42))
       (stdout (Async.issue (fun _ => proc0) [0; 1; 2; 3]%nat proc0).2).
Proof.
  split; [vm_compute; tauto |].
  split; [unfold Pool.complete; simpl; reflexivity |].
  split; [reflexivity |].
  split; [reflexivity |].
  assert (H : stdout (Async.issue (fun _ => proc0) [0; 1; 2; 3]%nat proc0).2
              = ["***13 is an impossible value!***"]%string)
    by (vm_compute; reflexivity).
  split; [exact H |].
  rewrite H. intros [Heq | []]. vm_compute in Heq. discriminate Heq.
Qed.

(** C9.  The error branch is reached in the asynchronous example: 13 and
    42 are both in [range(60)], so whatever the order in which the four
    chunks complete, [task] raises for a submitted input and the error
    callback prints its line. *)
Theorem error_branch_reached (w : nat -> proc) (sched : list nat) (s : proc) :
  Pool.complete (Pool.n_chunks 8 60 (Some 16%nat)) sched ->
  In 13 (Async.range 60) /\ In 42 (Async.range 60) /\
  exists v,
    (v = 13 \/ v = 42) /\ In v (Async.range 60) /\
    (Async.task v s).1 = Raise (impossible v) /\
    stdout (Async.issue w sched s).2
      = stdout s ++ [Async.banner (impossible v)].
Proof.
  intros Hsched.
  assert (H13 : In 13 (Async.range 60)) by (vm_compute; tauto).
  assert (H42 : In 42 (Async.range 60)) by (vm_compute; tauto).
  split; [done |]. split; [done |].
  destruct (task_job_stdout (Async.range 60) 16 w sched s) as [Hraise _];
    [lia | done |].
  destruct Hraise as (v & Hin & Hv & Hout); [by exists 13; split; [| left] |].
  exists v. split; [done |]. split; [done |]. split; [| done].
  rewrite task_pure. by apply task_outcome_raise.
Qed.

Lemma error_branch_reached_witness :
  In 13 (Async.range 60) /\ In 42 (Async.range 60) /\
  exists v,
    (v = 13 \/ v = 42) /\ In v (Async.range 60) /\
    (Async.task v proc0).1 = Raise (impossible v) /\
    stdout (Async.issue (fun _ => proc0) [3; 2; 1; 0]%nat proc0).2
      = stdout proc0 ++ [Async.banner (impossible v)].
Proof.
  apply (error_branch_reached (fun _ => proc0) [3; 2; 1; 0]%nat proc0).
  unfold Pool.complete. simpl. solve_Permutation.
Defined.

(** ** The retrieval request *)

Lemma submitted_is_call : ERA5.submitted = Ok submitted_call.
Proof. reflexivity. Qed.

(** C5.  Every retrieval request the notebook builds follows the fixed
    schema: its date range is [firstdate/to/lastdate], its parameter code
    is the entry of [vars] for the chosen variable, and its format is
    [netcdf]. *)
Theorem request_follows_schema (thisvar firstdate lastdate : string)
    (c : ERA5.retrieve_call) :
  ERA5.retrieve thisvar firstdate lastdate = Ok c ->
  ERA5.request c !! "date"%string = Some (firstdate +:+ "/to/" +:+ lastdate) /\
  (exists code, ERA5.vars !! thisvar = Some code /\
     ERA5.request c !! "param"%string = Some (pretty code)) /\
  ERA5.request c !! "format"%string = Some "netcdf"%string.
Proof.
  unfold ERA5.retrieve. destruct (ERA5.vars !! thisvar) as [code|]; [| done].
  intros [= <-]. cbn [ERA5.request]. split; [reflexivity |].
  split; [| reflexivity]. exists code. split; reflexivity.
Qed.

Lemma request_follows_schema_witness :
  ERA5.request submitted_call !! "date"%string
    = Some ("2023-01-01" +:+ "/to/" +:+ "2023-01-31") /\
  (exists code, ERA5.vars !! "temperature"%string = Some code /\
     ERA5.request submitted_call !! "param"%string = Some (pretty code)) /\
  ERA5.request submitted_call !! "format"%string = Some "netcdf"%string.
Proof.
  apply (request_follows_schema "temperature" "2023-01-01" "2023-01-31"
           submitted_call).
  reflexivity.
Defined.

(** C10.  [vars] is not injective: the three distinct variables specific
    humidity, surface pressure and 10-m wind speed all map to 111, so a
    request for any of them carries the same parameter code. *)
Theorem vars_not_injective :
  NoDup humidity_pressure_wind /\
  Forall (fun v => ERA5.vars !! v = Some 111) humidity_pressure_wind /\
  forall firstdate lastdate,
    Forall (fun v => exists c,
              ERA5.retrieve v firstdate lastdate = Ok c /\
              ERA5.request c !! "param"%string = Some "111"%string)
           humidity_pressure_wind.
Proof.
  split; [| split].
  - apply (bool_decide_unpack _). reflexivity.
  - repeat constructor.
  - intros firstdate lastdate.
    repeat constructor; (eexists; split; [reflexivity | reflexivity]).
Qed.

(** ** Further properties of the hashing notebook *)


(** X2.  [hash_word] raises exactly for the words that hold a surrogate
    code point, and what it raises then is [UnicodeEncodeError] for that
    word. *)
Theorem hash_word_raises_iff_surrogate (w : pystr) (s : proc) :
  (no_surrogate w <-> is_ok (Hashing.hash_word w s).1 = true) /\
  (~ no_surrogate w <->
   exists start stop,
     (Hashing.hash_word w s).1 = Raise (UnicodeEncodeError w start stop)).
Proof.
  rewrite hash_word_run. unfold hash_word_spec, Utf8.encode, no_surrogate.
  destruct (decide (Forall (fun c => is_surrogate c = false) w)) as [Hw|Hw].
  - destruct (encode_from_ok w 0 w Hw) as [bytes ->]. simpl.
    split; [done |]. split; [done |]. by intros (? & ? & ?).
  - destruct (encode_from_raise w 0 w Hw) as (start & stop & ->). simpl.
    split; [done |]. split; [by eauto | done].
Qed.

(** X3.  [Pool.map] over a function whose outcome does not depend on the
    process state returns the plain map over the list, in the list's
    order, whatever the order in which the chunks complete. *)
Theorem pool_map_is_plain_map {A R} (f : A -> M R) (g : A -> res R)
    (processes : nat) (items : list A) (w : nat -> proc) (sched : list nat)
    (s : proc) (rs : list R) :
  (forall a s, (f a s).1 = g a) ->
  Pool.complete (Pool.n_chunks processes (length items) None) sched ->
  map_res g items = Ok rs ->
  Pool.map processes f items w sched s = (Ok (Some (Some <$> rs)), s).
Proof. intros Hf Hsched Hrs. by apply (pool_map_ok f g). Qed.

Lemma pool_map_is_plain_map_witness :
  Pool.map 8 Hashing.hash_word (Hashing.readlines two_lines)
    (fun _ => proc0) [1; 0]%nat proc0
  = (Ok (Some (Some <$> [digest_ab; digest_cd])), proc0).
Proof.
  apply (pool_map_is_plain_map Hashing.hash_word hash_word_spec).
  - apply hash_word_pure.
  - unfold Pool.complete. simpl. solve_Permutation.
  - vm_compute. reflexivity.
Defined.

(** * Further properties of the notebooks' code *)

(** ** Reading the word file *)






(** ** The serial hashing cell *)

Lemma map_res_elem {A B} (g : A -> res B) (l : list A) (rs : list B) (b : B) :
  map_res g l = Ok rs -> In b rs <-> exists a, In a l /\ g a = Ok b.
Proof.
  revert rs. induction l as [|a l IH]; intros rs; simpl.
  - intros [= <-]. split; [done | by intros (? & [] & _)].
  - destruct (g a) as [b'|] eqn:Ha; [| done].
    destruct (map_res g l) as [bs|]; [| done].
    intros [= <-]. simpl. rewrite (IH bs eq_refl). split.
    + intros [<- | (a' & Hin & Ha')]; eauto.
    + intros (a' & [<- | Hin] & Ha'); [left; congruence | eauto].
Qed.

Lemma size_list_to_set_le (l : list string) :
  (size (list_to_set (C := gset string) l) <= length l)%nat.
Proof.
  induction l as [|x l IH].
  - by rewrite list_to_set_nil, size_empty.
  - rewrite list_to_set_cons, size_union_alt, size_singleton.
    assert (Hs : list_to_set (C := gset string) l ∖ {[x]} ⊆ list_to_set l)
      by apply subseteq_difference_l, reflexivity.
    apply subseteq_size in Hs. cbn [length]. lia.
Qed.

(** X6.  The set the serial cell builds holds exactly the hashes of the
    words: a string is in it if and only if it is the digest of some word
    of the list, so it has at most as many members as there are words. *)
Theorem known_words_serial_members (words : list pystr) (s : proc)
    (known_words : gset string) :
  (Hashing.known_words_serial words s).1 = Ok known_words ->
  (forall h, h ∈ known_words <->
     exists w, In w words /\ (Hashing.hash_word w s).1 = Ok h) /\
  (size known_words <= length words)%nat.
Proof.
  unfold Hashing.known_words_serial.
  rewrite bind_ret_fst, (map_list_pure _ _ _ _ hash_word_pure).
  destruct (map_res hash_word_spec words) as [hs|] eqn:Hhs; [| done].
  intros [= <-]. split.
  - intros h. rewrite elem_of_list_to_set, list_elem_of_In.
    rewrite (map_res_elem _ _ _ h Hhs).
    by setoid_rewrite hash_word_pure.
  - rewrite <- (map_res_length _ _ _ Hhs). apply size_list_to_set_le.
Qed.

Lemma known_words_serial_members_witness :
  (forall h, h ∈ ({[digest_ab; digest_cd]} : gset string) <->
     exists w, In w (Hashing.readlines two_lines) /\
               (Hashing.hash_word w proc0).1 = Ok h) /\
  (size ({[digest_ab; digest_cd]} : gset string)
   <= length (Hashing.readlines two_lines))%nat.
Proof.
  apply (known_words_serial_members (Hashing.readlines two_lines) proc0).
  vm_compute. reflexivity.
Defined.

Lemma encode_from_raise_at (obj : pystr) (pos : nat) (a : pystr) (c : Z)
    (b : pystr) :
  no_surrogate a -> is_surrogate c = true ->
  Utf8.encode_from obj pos (a ++ c :: b)
  = Raise (UnicodeEncodeError obj (pos + length a)
             (pos + length a + Utf8.surrogate_run (c :: b))).
Proof.
  intros Ha Hc. revert pos.
  induction Ha as [|x a Hx _ IH]; intros pos.
  - cbn [app Utf8.encode_from length].
    apply encode_char_None in Hc as ->. by rewrite Nat.add_0_r.
  - cbn [app Utf8.encode_from length].
    destruct (Utf8.encode_char x) as [bs|] eqn:Hbs.
    + rewrite IH. do 2 f_equal; lia.
    + apply encode_char_None in Hbs. congruence.
Qed.


(** X7.  When a word holds a surrogate, the [UnicodeEncodeError] that
    [hash_word] raises names the word, the position of its first
    surrogate, and the end of the run of surrogates that starts there. *)
Theorem hash_word_error_position (a : pystr) (c : Z) (b : pystr) (s : proc) :
  no_surrogate a -> is_surrogate c = true ->
  (Hashing.hash_word (a ++ c :: b) s).1
  = Raise (UnicodeEncodeError (a ++ c :: b) (length a)
             (length a + Utf8.surrogate_run (c :: b))) /\
  (1 <= Utf8.surrogate_run (c :: b))%nat.
Proof.
  intros Ha Hc. rewrite hash_word_run. unfold hash_word_spec, Utf8.encode.
  rewrite (encode_from_raise_at _ 0 a c b Ha Hc). split; [done |].
  simpl. rewrite Hc. lia.
Qed.

Lemma hash_word_error_position_witness :
  (Hashing.hash_word (py "a" ++ 0xD800%Z :: surrogate_tail) proc0).1
  = Raise (UnicodeEncodeError (py "a" ++ 0xD800%Z :: surrogate_tail)
             (length (py "a"))
             (length (py "a") + Utf8.surrogate_run (0xD800%Z :: surrogate_tail))) /\
  (1 <= Utf8.surrogate_run (0xD800%Z :: surrogate_tail))%nat.
Proof.
  apply (hash_word_error_position (py "a") 0xD800 surrogate_tail proc0).
  - repeat constructor.
  - reflexivity.
Defined.



(** ** The bytes [hash_word] feeds to the hash *)

Lemma lor_high_low (a y n : Z) :
  0 <= n -> 0 <= y < 2 ^ n -> Z.land a (Z.ones n) = 0 -> Z.lor a y = a + y.
Proof.
  intros Hn Hy Ha.
  assert (Hland : Z.land a y = 0).
  { rewrite <- (Z.mod_small y (2 ^ n)) by done.
    rewrite <- Z.land_ones by done.
    by rewrite (Z.land_comm y), Z.land_assoc, Ha, Z.land_0_l. }
  by rewrite <- Z.lxor_lor, Z.add_nocarry_lxor.
Qed.

Lemma land_low (c n : Z) : 0 <= n -> Z.land c (Z.ones n) = c mod 2 ^ n.
Proof. intros. by apply Z.land_ones. Qed.

(** The encoder's bit operations, as arithmetic. *)
Lemma encode_char_cases (c : Z) :
  code_point c ->
  (c < 0x80 /\ Utf8.encode_char c = Some [c]) \/
  (0x80 <= c < 0x800 /\
   Utf8.encode_char c = Some [0xC0 + c / 64; 0x80 + c mod 64]) \/
  (is_surrogate c = true /\ Utf8.encode_char c = None) \/
  (0x800 <= c < 0x10000 /\
   Utf8.encode_char c
   = Some [0xE0 + c / 4096; 0x80 + (c / 64) mod 64; 0x80 + c mod 64]) \/
  (0x10000 <= c /\
   Utf8.encode_char c
   = Some [0xF0 + c / 262144; 0x80 + (c / 4096) mod 64;
           0x80 + (c / 64) mod 64; 0x80 + c mod 64]).
Proof.
  intros [Hlo Hhi]. unfold Utf8.encode_char.
  assert (Hlow : forall x, Z.lor 0x80 (Z.land x 0x3F) = 0x80 + x mod 64).
  { intros x. change 0x3F with (Z.ones 6). rewrite land_low by lia.
    apply (lor_high_low _ _ 6); [lia | apply Z.mod_pos_bound; lia | done]. }
  rewrite !Hlow, !Z.shiftr_div_pow2 by lia.
  change (2 ^ 6) with 64. change (2 ^ 12) with 4096. change (2 ^ 18) with 262144.
  destruct (Z.ltb_spec c 0x80); [by left |].
  destruct (Z.ltb_spec c 0x800).
  { right; left. split; [lia |]. do 2 f_equal.
    apply (lor_high_low _ _ 5); [lia | | done].
    split; [apply Z.div_pos; lia | apply Z.div_lt_upper_bound; lia]. }
  destruct (is_surrogate c) eqn:Hs; [by right; right; left |].
  destruct (Z.ltb_spec c 0x10000).
  { right; right; right; left. split; [lia |]. do 2 f_equal.
    apply (lor_high_low _ _ 4); [lia | | done].
    split; [apply Z.div_pos; lia | apply Z.div_lt_upper_bound; lia]. }
  right; right; right; right. split; [lia |]. do 2 f_equal.
  apply (lor_high_low _ _ 3); [lia | | done].
  split; [apply Z.div_pos; lia | apply Z.div_lt_upper_bound; lia].
Qed.

Lemma encode_char_bytes (c : Z) (bs : list Z) :
  code_point c -> Utf8.encode_char c = Some bs ->
  Forall (fun b => 0 <= b < 256) bs /\
  (1 <= length bs <= 4)%nat /\
  (c < 0x80 -> bs = [c]) /\
  forall rest, utf8_decode (bs ++ rest) = c :: utf8_decode rest.
Proof.
  intros Hc Hbs. pose proof Hc as [Hlo Hhi].
  destruct (encode_char_cases c Hc)
    as [[H1 E] | [[H1 E] | [[_ E] | [[H1 E] | [H1 E]]]]];
    rewrite E in Hbs; try done; injection Hbs as <-;
    (split; [repeat constructor; Z.div_mod_to_equations; lia |]);
    (split; [simpl; lia |]); (split; [try done; lia |]); intros rest;
    cbn [app utf8_decode].
  - destruct (Z.ltb_spec c 0x80); [done | lia].
  - destruct (Z.ltb_spec (0xC0 + c / 64) 0x80);
      [Z.div_mod_to_equations; lia |].
    destruct (Z.ltb_spec (0xC0 + c / 64) 0xE0);
      [| Z.div_mod_to_equations; lia].
    f_equal. Z.div_mod_to_equations. lia.
  - destruct (Z.ltb_spec (0xE0 + c / 4096) 0x80);
      [Z.div_mod_to_equations; lia |].
    destruct (Z.ltb_spec (0xE0 + c / 4096) 0xE0);
      [Z.div_mod_to_equations; lia |].
    destruct (Z.ltb_spec (0xE0 + c / 4096) 0xF0);
      [| Z.div_mod_to_equations; lia].
    f_equal. Z.div_mod_to_equations. lia.
  - destruct (Z.ltb_spec (0xF0 + c / 262144) 0x80);
      [Z.div_mod_to_equations; lia |].
    destruct (Z.ltb_spec (0xF0 + c / 262144) 0xE0);
      [Z.div_mod_to_equations; lia |].
    destruct (Z.ltb_spec (0xF0 + c / 262144) 0xF0);
      [Z.div_mod_to_equations; lia |].
    f_equal. Z.div_mod_to_equations. lia.
Qed.

Lemma encode_from_bytes (obj : pystr) (pos : nat) (s : pystr) (bs : list Z) :
  wf_str s -> Utf8.encode_from obj pos s = Ok bs ->
  Forall (fun b => 0 <= b < 256) bs /\
  (length s <= length bs <= 4 * length s)%nat /\
  (Forall (fun c => c < 0x80) s -> bs = s) /\
  utf8_decode bs = s.
Proof.
  intros Hs. revert pos bs.
  induction Hs as [|c s Hc _ IH]; intros pos bs; cbn [Utf8.encode_from].
  - intros [= <-]. by repeat split.
  - destruct (Utf8.encode_char c) as [cb|] eqn:Hcb; [| done].
    destruct (Utf8.encode_from obj (S pos) s) as [rest|] eqn:Hrest; [| done].
    intros [= <-].
    destruct (encode_char_bytes c cb Hc Hcb) as (Hr & Hl & Ha & Hd).
    destruct (IH _ _ Hrest) as (Hr' & Hl' & Ha' & Hd').
    split; [by apply Forall_app |].
    split; [rewrite length_app; cbn [length]; lia |].
    split.
    + intros Hall. apply Forall_cons in Hall as [H1 H2].
      rewrite (Ha H1), (Ha' H2). done.
    + by rewrite Hd, Hd'.
Qed.

(** X9.  The bytes [hash_word] hashes are well-formed: every one is in
    0..255, a word of [n] code points gives between [n] and [4n] bytes,
    and an ASCII word is hashed byte for byte as it is. *)
Theorem utf8_encode_bytes (word : pystr) (byte_data : list Z) :
  wf_str word -> Utf8.encode word = Ok byte_data ->
  Forall (fun b => 0 <= b < 256) byte_data /\
  (length word <= length byte_data <= 4 * length word)%nat /\
  (Forall (fun c => c < 0x80) word -> byte_data = word).
Proof.
  intros Hw He. by destruct (encode_from_bytes word 0 word byte_data Hw He)
    as (? & ? & ? & _).
Qed.

Lemma utf8_encode_bytes_witness :
  Forall (fun b => 0 <= b < 256)
    [0x61; 0xc3; 0xa9; 0xe2; 0x82; 0xac; 0xf0; 0x9f; 0x98; 0x80] /\
  (length mixed_word
   <= length [0x61; 0xc3; 0xa9; 0xe2; 0x82; 0xac; 0xf0; 0x9f; 0x98; 0x80]
   <= 4 * length mixed_word)%nat /\
  (Forall (fun c => c < 0x80) mixed_word ->
   [0x61; 0xc3; 0xa9; 0xe2; 0x82; 0xac; 0xf0; 0x9f; 0x98; 0x80] = mixed_word).
Proof.
  apply (utf8_encode_bytes mixed_word).
  - repeat constructor; unfold code_point; lia.
  - reflexivity.
Defined.

(** X10.  UTF-8 encoding loses nothing: the word can be read back from its
    bytes, so two different words are never hashed over the same bytes. *)
Theorem utf8_encode_injective (word word' : pystr) (byte_data : list Z) :
  wf_str word -> wf_str word' ->
  Utf8.encode word = Ok byte_data -> Utf8.encode word' = Ok byte_data ->
  utf8_decode byte_data = word /\ word = word'.
Proof.
  intros Hw Hw' He He'.
  destruct (encode_from_bytes word 0 word byte_data Hw He) as (_ & _ & _ & Hd).
  destruct (encode_from_bytes word' 0 word' byte_data Hw' He')
    as (_ & _ & _ & Hd').
  split; [done | congruence].
Qed.

Lemma utf8_encode_injective_witness :
  utf8_decode [0x61; 0xc3; 0xa9; 0xe2; 0x82; 0xac; 0xf0; 0x9f; 0x98; 0x80]
  = mixed_word /\ mixed_word = mixed_word.
Proof.
  apply (utf8_encode_injective mixed_word mixed_word).
  - repeat constructor; unfold code_point; lia.
  - repeat constructor; unfold code_point; lia.
  - reflexivity.
  - reflexivity.
Defined.

(** ** The pool *)

Lemma chunks_sizes {A} (size : nat) (l : list A) :
  (0 < size)%nat ->
  Forall (fun c => (0 < length c <= size)%nat) (chunks size l).
Proof.
  intros Hsize. revert l. apply (chunks_ind size); [done | |].
  - constructor.
  - intros l Hl IH. rewrite chunks_cons by done. constructor; [| done].
    rewrite length_take. apply length_pos_nonnil in Hl. lia.
Qed.

Lemma blocks_of_full {X} (size : nat) (bs : list (list X)) (i : nat)
    (c : list X) :
  blocks_of size bs -> bs !! i = Some c -> (S i < length bs)%nat ->
  length c = size.
Proof.
  intros Hbs. revert i.
  induction Hbs as [|b Hb|b bs Hb _ IH]; intros i Hi Hlt; simpl in *.
  - done.
  - lia.
  - destruct i as [|i]; simpl in Hi; [congruence |]. apply (IH i); [done | lia].
Qed.

(** X11.  The pool cuts an iterable into consecutive tasks that put
    together give the iterable back; no task is empty, none is longer than
    the chunk size, and all but the last have exactly that size. *)
Theorem get_tasks_partition {A} (iterable : list A) (size : nat) :
  (0 < size)%nat ->
  concat (Pool.get_tasks iterable size) = iterable /\
  Forall (fun c => (0 < length c <= size)%nat) (Pool.get_tasks iterable size) /\
  (forall i c,
     Pool.get_tasks iterable size !! i = Some c ->
     (S i < length (Pool.get_tasks iterable size))%nat ->
     length c = size) /\
  length (Pool.get_tasks iterable size) =
  (if (length iterable mod size =? 0)%nat
   then (length iterable / size)%nat else S (length iterable / size)).
Proof.
  intros Hsize. unfold Pool.get_tasks.
  split; [by apply chunks_concat |].
  split; [by apply chunks_sizes |].
  split; [| by apply chunks_length].
  intros i c. apply blocks_of_full. by apply chunks_blocks.
Qed.

Lemma get_tasks_partition_witness :
  concat (Pool.get_tasks (Async.range 60) 16) = Async.range 60 /\
  Forall (fun c => (0 < length c <= 16)%nat) (Pool.get_tasks (Async.range 60) 16) /\
  (forall i c,
     Pool.get_tasks (Async.range 60) 16 !! i = Some c ->
     (S i < length (Pool.get_tasks (Async.range 60) 16))%nat ->
     length c = 16%nat) /\
  length (Pool.get_tasks (Async.range 60) 16) =
  (if (length (Async.range 60) mod 16 =? 0)%nat
   then (length (Async.range 60) / 16)%nat
   else S (length (Async.range 60) / 16)).
Proof.
  apply (get_tasks_partition (Async.range 60) 16). lia.
Defined.

Lemma default_chunking_arith (processes n : nat) :
  (0 < processes)%nat ->
  (n <= Pool.chunksize_for processes n None * (processes * 4))%nat /\
  (Pool.chunksize_for processes n None * (processes * 4)
   < n + processes * 4)%nat /\
  (Pool.n_chunks processes n None <= processes * 4)%nat.
Proof.
  intros Hp. unfold Pool.n_chunks, Pool.chunksize_for.
  set (m := (processes * 4)%nat). assert (Hm : (0 < m)%nat) by (subst m; lia).
  pose proof (Nat.div_mod_eq n m) as Hdm.
  pose proof (Nat.mod_upper_bound n m ltac:(lia)) as Hmod.
  destruct (Nat.eqb_spec n 0) as [->|Hn]; [simpl; lia |].
  destruct (Nat.eqb_spec (n mod m) 0) as [Hz|Hz].
  - assert (Hq : (0 < n / m)%nat) by nia.
    split; [nia |]. split; [nia |].
    destruct (n / m)%nat as [|q] eqn:Eq; [lia |].
    pose proof (Nat.div_mod_eq n (S q)) as Hdm'.
    pose proof (Nat.mod_upper_bound n (S q) ltac:(lia)) as Hmod'.
    destruct (Nat.eqb_spec (n mod S q) 0); nia.
  - split; [nia |]. split; [nia |].
    pose proof (Nat.div_mod_eq n (S (n / m))) as Hdm'.
    pose proof (Nat.mod_upper_bound n (S (n / m)) ltac:(lia)) as Hmod'.
    destruct (Nat.eqb_spec (n mod S (n / m)) 0); nia.
Qed.

(** X12.  Without a chunk size from the caller, [Pool.map] takes the
    length divided by four times the number of processes, rounded up, so
    a job is never cut into more than four tasks per process. *)
Theorem default_chunking_bound {A} (processes : nat) (iterable : list A) :
  (0 < processes)%nat ->
  let cs := Pool.chunksize_for processes (length iterable) None in
  (length iterable <= cs * (processes * 4))%nat /\
  (cs * (processes * 4) < length iterable + processes * 4)%nat /\
  (length (Pool.get_tasks iterable cs) <= processes * 4)%nat.
Proof.
  intros Hp cs. subst cs. unfold Pool.get_tasks. rewrite <- n_chunks_spec.
  by apply default_chunking_arith.
Qed.

Lemma default_chunking_bound_witness :
  let cs := Pool.chunksize_for Hashing.processes (length (Async.range 100)) None in
  (length (Async.range 100) <= cs * (Hashing.processes * 4))%nat /\
  (cs * (Hashing.processes * 4)
   < length (Async.range 100) + Hashing.processes * 4)%nat /\
  (length (Pool.get_tasks (Async.range 100) cs) <= Hashing.processes * 4)%nat.
Proof.
  apply (default_chunking_bound Hashing.processes (Async.range 100)).
  unfold Hashing.processes. lia.
Defined.

(** ** What a worker does with a chunk *)

Lemma imap_shift {X Y} (f : nat -> X -> Y) (g : nat -> X -> Y) (l : list X) :
  (forall k x, f k x = g (S k) x) -> imap f l = imap (g ∘ S) l.
Proof. intros Hfg. apply imap_ext. intros k x _. apply Hfg. Qed.

Lemma task_run_ok (v : Z) (s : proc) :
  (v =? 42) || (v =? 13) = false ->
  Async.task v s =
  (Ok tt,
   Proc (heap s) (rng s) (S (drawn s))
     (stdout s ++ [task_report v (next_draw s 0)])
     (slept s ++ [next_draw s 0])).
Proof.
  intros Hv. unfold Async.task. rewrite Hv.
  unfold next_draw, task_report. by rewrite Nat.add_0_r.
Qed.

Lemma mapstar_task_run (chunk : list Z) (s : proc) :
  map_list Async.task chunk s =
  (match first_sentinel chunk with
   | Some v => Raise (impossible v)
   | None => Ok (replicate (length chunk) tt)
   end,
   Proc (heap s) (rng s) (drawn s + length (before_sentinel chunk))
     (stdout s ++ imap (fun k v => task_report v (next_draw s k))
                       (before_sentinel chunk))
     (slept s ++ imap (fun k _ => next_draw s k) (before_sentinel chunk))).
Proof.
  revert s. induction chunk as [|v chunk IH]; intros s.
  { cbn. rewrite Nat.add_0_r, !app_nil_r. by destruct s. }
  cbn [map_list]. unfold mbind at 1. unfold M_bind.
  unfold first_sentinel. cbn [find before_sentinel].
  fold (first_sentinel chunk).
  destruct ((v =? 42) || (v =? 13)) eqn:Hv.
  { unfold Async.task. rewrite Hv. cbn.
    rewrite Nat.add_0_r, !app_nil_r. by destruct s. }
  rewrite (task_run_ok v s Hv).
  set (s1 := Proc (heap s) (rng s) (S (drawn s))
               (stdout s ++ [task_report v (next_draw s 0)])
               (slept s ++ [next_draw s 0])).
  unfold mbind at 1. unfold M_bind. rewrite IH.
  assert (Hd : forall k, next_draw s1 k = next_draw s (S k)).
  { intros k. unfold next_draw, s1. cbn [rng drawn].
    by replace (S (drawn s) + k)%nat with (drawn s + S k)%nat by lia. }
  rewrite (imap_ext (fun k v => task_report v (next_draw s1 k))
             ((fun k v => task_report v (next_draw s k)) ∘ S)
             (before_sentinel chunk))
    by (intros k x _; cbn; by rewrite Hd).
  rewrite (imap_ext (fun k (_ : Z) => next_draw s1 k)
             ((fun k (_ : Z) => next_draw s k) ∘ S)
             (before_sentinel chunk))
    by (intros k x _; cbn; by rewrite Hd).
  subst s1. cbn [heap rng drawn stdout slept length imap].
  rewrite <- !app_assoc. cbn [app].
  replace (S (drawn s) + length (before_sentinel chunk))%nat
    with (drawn s + S (length (before_sentinel chunk)))%nat by lia.
  by destruct (first_sentinel chunk).
Qed.

(** X13.  A worker stops a chunk at its first sentinel: [task] runs for
    the inputs before it, in order, each drawing one float, sleeping for
    it and printing its line; the sentinel's error is the chunk's outcome,
    and the inputs after it are never processed. *)
Theorem mapstar_stops_at_sentinel (chunk : list Z) (s : proc) :
  let reached := before_sentinel chunk in
  let s' := (map_list Async.task chunk s).2 in
  (map_list Async.task chunk s).1 =
    match first_sentinel chunk with
    | Some v => Raise (impossible v)
    | None => Ok (replicate (length chunk) tt)
    end /\
  drawn s' = (drawn s + length reached)%nat /\
  stdout s' = stdout s ++ imap (fun k v => task_report v (next_draw s k)) reached /\
  slept s' = slept s ++ imap (fun k _ => next_draw s k) reached /\
  heap s' = heap s /\
  (forall v, first_sentinel chunk = Some v ->
     exists after, chunk = reached ++ v :: after /\ (v = 13 \/ v = 42)) /\
  (first_sentinel chunk = None -> reached = chunk).
Proof.
  intros reached s'. subst reached s'. rewrite mapstar_task_run.
  cbn [fst snd heap drawn stdout slept]. repeat split; try done.
  - clear s. intros v. unfold first_sentinel.
    induction chunk as [|x chunk IH]; cbn [find before_sentinel]; [done |].
    destruct ((x =? 42) || (x =? 13)) eqn:Hx.
    + intros [= ->]. exists chunk. split; [done | lia].
    + intros Hv. destruct (IH Hv) as (after & Hc & Hs).
      exists after. split; [| done]. cbn [app]. by f_equal.
  - clear s. unfold first_sentinel.
    induction chunk as [|x chunk IH]; cbn [find before_sentinel]; [done |].
    destruct ((x =? 42) || (x =? 13)); [done |]. intros Hn. f_equal. auto.
Qed.

(** ** Before the last chunk has reported *)

Lemma handle_results_waiting {R} cb ecb (outcomes : list (res (list R)))
    (sched : list nat) (mr : Pool.MapResult R) (s : proc) :
  Z.of_nat (length sched) < Pool.number_left mr ->
  exists mr',
    Pool.handle_results cb ecb outcomes sched mr s = (Ok mr', s) /\
    Pool.ready mr' = Pool.ready mr.
Proof.
  revert mr. induction sched as [|x sched IH]; intros mr Hlt.
  { by exists mr. }
  cbn [Pool.handle_results length] in *.
  destruct (outcomes !! x) as [sr|]; [| apply IH; lia].
  rewrite MapResult_set_unfold. cbn zeta.
  destruct (Z.eqb_spec (Pool.number_left mr - 1) 0) as [Hz|Hz]; [lia |].
  unfold mbind at 1. unfold M_bind, mret at 1. unfold M_ret.
  match goal with |- context [Pool.handle_results _ _ _ _ ?m s] =>
    destruct (IH m) as (mr' & -> & Hr); [cbn [Pool.number_left]; lia |]
  end.
  by exists mr'.
Qed.

(** X14.  The error callback waits for the last chunk: as long as fewer
    chunks have reported than the job has, neither callback has run, the
    job is not ready and [get] keeps waiting, also when the chunks that
    have reported failed. *)
Theorem callbacks_wait_for_last_chunk {A R} (processes : nat) (f : A -> M R)
    (iterable : list A) (chunksize : option nat)
    (callback : option (list (option R) -> M unit))
    (error_callback : option (exn -> M unit))
    (w : nat -> proc) (sched : list nat) (s : proc) :
  (length sched < Pool.n_chunks processes (length iterable) chunksize)%nat ->
  exists mr,
    Pool.map_async processes f iterable chunksize callback error_callback
      w sched s = (Ok mr, s) /\
    Pool.ready mr = false /\
    Pool.get mr s = (Ok None, s).
Proof.
  intros Hlt. unfold Pool.map_async, Pool.n_chunks in *.
  destruct (Pool.chunksize_for processes (length iterable) chunksize)
    as [|cs] eqn:Hcs; [lia |].
  match goal with |- context [Pool.handle_results _ _ ?o _ ?m s] =>
    destruct (handle_results_waiting callback error_callback o sched m s)
      as (mr & Hrun & Hready)
  end.
  { unfold Pool.new_result. cbn [Pool.number_left].
    destruct (length iterable mod S cs =? 0)%nat; lia. }
  exists mr. split; [done |].
  assert (Pool.ready mr = false) as Hr by (by rewrite Hready).
  split; [done |]. unfold Pool.get. by rewrite Hr.
Qed.

Lemma callbacks_wait_for_last_chunk_witness :
  exists mr,
    Pool.map_async 8 Async.task (Async.range 60) (Some 16%nat) None
      (Some Async.galactic_error) (fun _ => proc0) [0; 2; 1]%nat proc0
    = (Ok mr, proc0) /\
    Pool.ready mr = false /\
    Pool.get mr proc0 = (Ok None, proc0).
Proof.
  apply (callbacks_wait_for_last_chunk 8 Async.task (Async.range 60)
           (Some 16%nat) None (Some Async.galactic_error) (fun _ => proc0)
           [0; 2; 1]%nat proc0).
  vm_compute. lia.
Defined.

(** ** An empty iterable *)

Lemma handle_results_no_outcomes {R} cb ecb (sched : list nat)
    (mr : Pool.MapResult R) (s : proc) :
  Pool.handle_results cb ecb [] sched mr s = (Ok mr, s).
Proof. induction sched as [|x sched IH]; [done | apply IH]. Qed.

(** X15.  On an empty iterable the pool calls nothing: the function is not
    applied, neither callback runs (the success callback included), the job
    is ready at once and [Pool.map] returns the empty list.  For an empty
    word file both hashing cells give the empty set. *)
Theorem empty_iterable_calls_nothing {A R} (processes : nat) (f : A -> M R)
    (chunksize : option nat)
    (callback : option (list (option R) -> M unit))
    (error_callback : option (exn -> M unit))
    (w : nat -> proc) (sched : list nat) (s : proc) :
  Pool.map_async processes f [] chunksize callback error_callback w sched s
    = (Ok (Pool.MkMapResult (Ok []) 0 0 true), s) /\
  Pool.map processes f [] w sched s = (Ok (Some []), s) /\
  Hashing.known_words_parallel (Hashing.readlines []) w sched s
    = (Ok (Some ∅), s) /\
  Hashing.known_words_serial (Hashing.readlines []) s = (Ok ∅, s).
Proof.
  assert (H : forall B (h : A -> M B) cs cb ecb,
    Pool.map_async processes h [] cs cb ecb w sched s
    = (Ok (Pool.MkMapResult (Ok []) 0 0 true), s)).
  { intros. unfold Pool.map_async, Pool.get_tasks, Pool.chunksize_for.
    cbn [length Nat.eqb chunks imap]. rewrite chunks_nil. cbn [imap].
    apply handle_results_no_outcomes. }
  split; [apply H |]. split.
  - unfold Pool.map, mbind, M_bind. by rewrite H.
  - split; [| done].
    unfold Hashing.known_words_parallel, Pool.map, mbind, M_bind.
    cbn [Hashing.readlines].
    unfold Pool.map_async, Pool.get_tasks, Pool.chunksize_for.
    cbn [length Nat.eqb]. rewrite chunks_nil. cbn [imap].
    by rewrite handle_results_no_outcomes.
Qed.

(** X16.  [Pool.map] raises exactly when the plain map would: for a
    function whose outcome ignores the process state it raises if and only
    if the function fails on some item, what it raises is the error of one
    of the items, and the parent process is left as it was. *)
Theorem pool_map_raises_like_map {A R} (f : A -> M R) (g : A -> res R)
    (processes : nat) (items : list A) (w : nat -> proc) (sched : list nat)
    (s : proc) :
  (forall a s, (f a s).1 = g a) ->
  Pool.complete (Pool.n_chunks processes (length items) None) sched ->
  (is_ok (Pool.map processes f items w sched s).1 = false <->
   exists a, In a items /\ is_ok (g a) = false) /\
  (forall e, (Pool.map processes f items w sched s).1 = Raise e ->
     exists a, In a items /\ g a = Raise e) /\
  (Pool.map processes f items w sched s).2 = s.
Proof.
  intros Hf Hsched.
  destruct (map_res g items) as [rs|e] eqn:Hrs.
  - rewrite (pool_map_ok f g Hf _ _ w _ s Hsched rs Hrs). cbn.
    split; [| done]. split; [done |].
    intros (a & Hin & Ha). destruct (map_res_ok_all _ _ _ _ Hrs Hin) as [b Hb].
    by rewrite Hb in Ha.
  - destruct (pool_map_raise f g Hf _ _ w _ s Hsched e Hrs)
      as (e' & a & -> & Hin & Ha). cbn.
    split; [| split; [| done]].
    + split; [| done]. intros _. exists a. by rewrite Ha.
    + intros e0 [= <-]. eauto.
Qed.

Lemma pool_map_raises_like_map_witness :
  (is_ok (Pool.map 8 Hashing.hash_word words_with_bad (fun _ => proc0)
            [2; 1; 0]%nat proc0).1 = false <->
   exists a, In a words_with_bad /\ is_ok (hash_word_spec a) = false) /\
  (forall e,
     (Pool.map 8 Hashing.hash_word words_with_bad (fun _ => proc0)
        [2; 1; 0]%nat proc0).1 = Raise e ->
     exists a, In a words_with_bad /\ hash_word_spec a = Raise e) /\
  (Pool.map 8 Hashing.hash_word words_with_bad (fun _ => proc0)
     [2; 1; 0]%nat proc0).2 = proc0.
Proof.
  apply (pool_map_raises_like_map Hashing.hash_word hash_word_spec).
  - apply hash_word_pure.
  - unfold Pool.complete. simpl. solve_Permutation.
Defined.

(** ** The main thread and the entry point's job *)

Lemma map_list_print_sleep (line : Z -> string) (t : pyfloat) (l : list Z)
    (s : proc) :
  map_list (fun i => _ ← print (line i); sleep t) l s =
  (Ok (replicate (length l) tt),
   Proc (heap s) (rng s) (drawn s) (stdout s ++ (line <$> l))
     (slept s ++ replicate (length l) t)).
Proof.
  revert s. induction l as [|i l IH]; intros s.
  { cbn. rewrite !app_nil_r. by destruct s. }
  cbn [map_list]. unfold mbind at 1. unfold M_bind.
  unfold mbind at 1. unfold M_bind, print, sleep.
  unfold mbind at 1. unfold M_bind. rewrite IH.
  cbn [heap rng drawn stdout slept length replicate fmap list_fmap].
  by rewrite <- !app_assoc.
Qed.

(** X17.  [main_task] prints its hundred lines in order, sleeps 0.04
    seconds after each, draws no random number, and never raises. *)
Theorem main_task_output (s : proc) :
  Async.main_task s =
  (Ok tt,
   Proc (heap s) (rng s) (drawn s) (stdout s ++ main_lines)
     (slept s ++ replicate 100 sleep_time)) /\
  length main_lines = 100%nat /\
  format_3f sleep_time = "0.040"%string.
Proof.
  split; [| split; [reflexivity | vm_compute; reflexivity]].
  unfold Async.main_task. cbn zeta. unfold mbind at 1. unfold M_bind.
  rewrite map_list_print_sleep.
  replace (format_3f (Float 5764607523034235 57)) with "0.040"%string
    by (vm_compute; reflexivity).
  done.
Qed.

Lemma reported_sentinel_first (batches : list (list Z)) (early late : list nat)
    (i : nat) (v : Z) :
  (forall j, j ∈ early -> batches !! j ≫= first_sentinel = None) ->
  batches !! i ≫= first_sentinel = Some v ->
  reported_sentinel batches (early ++ i :: late) = Some v.
Proof.
  intros Hearly Hi. induction early as [|j early IH]; cbn [app reported_sentinel].
  - by rewrite Hi.
  - rewrite (Hearly j) by (by left). apply IH. intros j' Hj'. apply Hearly. by right.
Qed.

(** X18.  In the entry point's job the chunks of 13 and of 42 both fail,
    and the one that reports first decides the job: the callback prints
    the line for 13 when chunk 0 reports before chunk 2 and the line for
    42 otherwise, and the job ends holding that error. *)
Theorem first_failing_chunk_decides (w : nat -> proc) (early late : list nat)
    (i : nat) (s : proc) :
  Pool.complete (Pool.n_chunks 8 60 (Some 16%nat)) (early ++ i :: late) ->
  i = 0%nat \/ i = 2%nat ->
  0%nat ∉ early -> 2%nat ∉ early ->
  let v := if (i =? 0)%nat then 13 else 42 in
  Async.issue w (early ++ i :: late) s =
  (Ok (Pool.MkMapResult (Raise (impossible v)) 16 0 true),
   Proc (heap s) (rng s) (drawn s) (stdout s ++ [Async.banner (impossible v)])
     (slept s)).
Proof.
  intros Hsched Hi H0 H2 v. unfold Async.issue.
  rewrite (map_async_filed _ _ task_pure 8 (Async.range 60) (Some 16%nat)
             _ _ w _ s 16); [| done | done | lia | done].
  unfold filed. rewrite first_failure_task.
  rewrite (reported_sentinel_first _ early late i v).
  - by destruct s.
  - intros j Hj.
    assert (j <> 0%nat /\ j <> 2%nat) as [? ?] by (split; intros ->; done).
    destruct j as [|[|[|[|j]]]]; done.
  - subst v. by destruct Hi as [-> | ->].
Qed.

Lemma first_failing_chunk_decides_witness :
  let v := if (2 =? 0)%nat then 13 else 42 in
  Async.issue (fun _ => proc0) ([3; 1]%nat ++ 2%nat :: [0]%nat) proc0 =
  (Ok (Pool.MkMapResult (Raise (impossible v)) 16 0 true),
   Proc (heap proc0) (rng proc0) (drawn proc0)
     (stdout proc0 ++ [Async.banner (impossible v)]) (slept proc0)).
Proof.
  apply (first_failing_chunk_decides (fun _ => proc0) [3; 1]%nat [0]%nat 2
           proc0).
  - unfold Pool.complete. simpl. solve_Permutation.
  - by right.
  - intros H. apply list_elem_of_In in H. simpl in H. lia.
  - intros H. apply list_elem_of_In in H. simpl in H. lia.
Defined.

(** ** The retrieval request *)

Lemma vars_lookup (v : string) :
  (In v var_names <-> is_Some (ERA5.vars !! v)) /\
  (~ In v var_names <-> ERA5.vars !! v = None).
Proof.
  assert (H : In v var_names <-> is_Some (ERA5.vars !! v)).
  { split.
    - intros [<- | [<- | [<- | [<- | []]]]]; by eexists.
    - unfold ERA5.vars, ERA5.dict, var_names. cbn [foldl fst snd In].
      rewrite !lookup_insert_is_Some, lookup_empty.
      intros [<- | [_ [<- | [_ [<- | [_ [<- | [_ H]]]]]]]]; try tauto.
      by destruct H. }
  split; [done |]. rewrite H, eq_None_not_Some. done.
Qed.

(** X19.  A request can be built exactly for the four variables [vars]
    knows; for any other name the lookup raises [KeyError] with that name
    and nothing is submitted. *)
Theorem retrieve_unknown_variable (thisvar firstdate lastdate : string) :
  (In thisvar var_names <->
   is_ok (ERA5.retrieve thisvar firstdate lastdate) = true) /\
  (~ In thisvar var_names <->
   ERA5.retrieve thisvar firstdate lastdate = Raise (KeyError thisvar)).
Proof.
  destruct (vars_lookup thisvar) as [Hin Hout]. unfold ERA5.retrieve.
  split; [rewrite Hin | rewrite Hout];
    destruct (ERA5.vars !! thisvar) as [code|]; cbn; split;
    try done; try (by intros []); by eauto.
Qed.



Lemma list_ascii_of_string_app (a b : string) :
  list_ascii_of_string (a +:+ b)
  = list_ascii_of_string a ++ list_ascii_of_string b.
Proof. induction a as [|c a IH]; simpl; [done | by rewrite IH]. Qed.

Lemma string_app_inv_tail (a a' t : string) : a +:+ t = a' +:+ t -> a = a'.
Proof.
  intros H. apply (f_equal list_ascii_of_string) in H.
  rewrite !list_ascii_of_string_app in H. apply app_inv_tail in H.
  apply (f_equal string_of_list_ascii) in H.
  by rewrite !string_of_list_ascii_of_string in H.
Qed.

Lemma split_at_underscore (a a' x x' : string) :
  no_underscore a -> no_underscore a' ->
  a +:+ String "_" x = a' +:+ String "_" x' -> a = a' /\ x = x'.
Proof.
  unfold no_underscore. revert a'.
  induction a as [|c a IH]; intros [|c' a'] Ha Ha' H; simpl in *.
  - by injection H as ->.
  - injection H as <- _. destruct Ha'. by left.
  - injection H as -> _. destruct Ha. by left.
  - injection H as -> H. destruct (IH a') as [E1 E2]; [tauto | tauto | done |].
    by subst.
Qed.

Lemma var_names_no_underscore (v : string) :
  In v var_names -> no_underscore v.
Proof.
  unfold no_underscore.
  intros [<- | [<- | [<- | [<- | []]]]]; cbn; intros H;
    repeat (destruct H as [H | H]; [discriminate H |]); done.
Qed.

Lemma retrieve_var_known (thisvar firstdate lastdate : string) :
  is_ok (ERA5.retrieve thisvar firstdate lastdate) = true ->
  In thisvar var_names.
Proof.
  unfold ERA5.retrieve. intros H. apply (vars_lookup thisvar).
  by destruct (ERA5.vars !! thisvar).
Qed.

Lemma request_target (thisvar firstdate lastdate : string)
    (c : ERA5.retrieve_call) :
  ERA5.retrieve thisvar firstdate lastdate = Ok c ->
  ERA5.target c
  = ("era5_" +:+ thisvar +:+ "_" +:+ firstdate +:+ "_" +:+ lastdate +:+ ".nc").
Proof.
  unfold ERA5.retrieve. destruct (ERA5.vars !! thisvar); [| done].
  by intros [= <-].
Qed.

(** X21.  Requests for different downloads are written to different
    files: when the dates hold no underscore (as ISO dates do), the target
    name determines the variable and both dates, hence the whole call. *)
Theorem target_determines_call (thisvar firstdate lastdate : string)
    (thisvar' firstdate' lastdate' : string) (c c' : ERA5.retrieve_call) :
  ERA5.retrieve thisvar firstdate lastdate = Ok c ->
  ERA5.retrieve thisvar' firstdate' lastdate' = Ok c' ->
  no_underscore firstdate -> no_underscore firstdate' ->
  ERA5.target c = ERA5.target c' ->
  thisvar = thisvar' /\ firstdate = firstdate' /\ lastdate = lastdate' /\ c = c'.
Proof.
  intros Hc Hc' Hf Hf' Ht.
  assert (Hv : In thisvar var_names).
  { apply (retrieve_var_known thisvar firstdate lastdate). by rewrite Hc. }
  assert (Hv' : In thisvar' var_names).
  { apply (retrieve_var_known thisvar' firstdate' lastdate'). by rewrite Hc'. }
  rewrite (request_target _ _ _ _ Hc), (request_target _ _ _ _ Hc') in Ht.
  apply (inj (String.app "era5_")) in Ht.
  apply split_at_underscore in Ht as [-> Ht];
    [| by apply var_names_no_underscore..].
  apply split_at_underscore in Ht as [-> Ht]; [| done..].
  apply string_app_inv_tail in Ht as ->.
  repeat split. congruence.
Qed.

Lemma target_determines_call_witness :
  ERA5.thisvar = ERA5.thisvar /\ ERA5.firstdate = ERA5.firstdate /\
  ERA5.lastdate = ERA5.lastdate /\ submitted_call = submitted_call.
Proof.
  apply (target_determines_call ERA5.thisvar ERA5.firstdate ERA5.lastdate
           ERA5.thisvar ERA5.firstdate ERA5.lastdate submitted_call
           submitted_call).
  - reflexivity.
  - reflexivity.
  - intros H. cbn in H. repeat (destruct H as [H | H]; [discriminate H |]). done.
  - intros H. cbn in H. repeat (destruct H as [H | H]; [discriminate H |]). done.
  - reflexivity.
Defined.

(** With an underscore in a date two different downloads can share a
    file name. *)
Example target_collision :
  exists c c',
    ERA5.retrieve "temperature" "2023_01" "02" = Ok c /\
    ERA5.retrieve "temperature" "2023" "01_02" = Ok c' /\
    ERA5.target c = ERA5.target c' /\ c <> c'.
Proof.
  eexists _, _. split; [reflexivity |]. split; [reflexivity |].
  split; [reflexivity |]. intros H.
  apply (f_equal (fun c => ERA5.request c !! "date"%string)) in H.
  vm_compute in H. discriminate H.
Qed.
